(** * Reproducibility checker: digests of files and archives, and their comparison

    A shallow embedding of [reproducibility.py]: [digest_files],
    [digest_archive], [compare_digests] and [test_reproducibility], together
    with the parts of the Python library they call ([hashlib.sha256],
    [json.dumps], [os.path.join], [str.endswith], [collections.ChainMap]).

    Conventions.
    - A Python [str] is a [string] holding its UTF-8 encoding; the bytewise
      order of [String.le] is the code point order Python's [<] uses.
    - A [bytes] value is a [list byte].
    - A [dict] from [str] to [str] is a [gmap string string]; [{**a, **b}] is
      the left-biased union [b ∪ a], [{**a, k: v}] is [<[k:=v]> a].
    - Calls into the operating system go through an explicit [FS] value and
      are logged as a list of [event]s next to the outcome of the call. *)

From Stdlib Require Import ZArith List String Ascii DecimalString DecimalZ DecimalPos.
From stdpp Require Import base gmap sets list strings sorting.

Local Open Scope Z_scope.

(** ** Strings *)

Definition chars (s : string) : list ascii := list_ascii_of_string s.

(** [s.endswith(suffix)] *)
Definition endswith (s suffix : string) : bool :=
  bool_decide (chars suffix `suffix_of` chars s).

(** [posixpath.join(a, b)] *)
Definition os_path_join (a b : string) : string :=
  if String.prefix "/" b then b
  else if bool_decide (a = EmptyString) || endswith a "/" then a +:+ b
  else a +:+ "/" +:+ b.

(** [repr] of a Python [int] *)
Definition repr_int (z : Z) : string := NilZero.string_of_int (Z.to_int z).

(** ** hashlib.sha256

    The hash of FIPS 180-4, on 32-bit words held in [Z]. *)

Module SHA256.

Definition w32 (x : Z) : Z := Z.land x 4294967295.
Definition add32 (x y : Z) : Z := w32 (x + y).
Definition not32 (x : Z) : Z := Z.lxor x 4294967295.
Definition rotr (n x : Z) : Z :=
  Z.lor (Z.shiftr x n) (w32 (Z.shiftl x (32 - n))).

Definition Ch (x y z : Z) : Z := Z.lxor (Z.land x y) (Z.land (not32 x) z).
Definition Maj (x y z : Z) : Z :=
  Z.lxor (Z.lxor (Z.land x y) (Z.land x z)) (Z.land y z).
Definition Sigma0 (x : Z) : Z := Z.lxor (Z.lxor (rotr 2 x) (rotr 13 x)) (rotr 22 x).
Definition Sigma1 (x : Z) : Z := Z.lxor (Z.lxor (rotr 6 x) (rotr 11 x)) (rotr 25 x).
Definition sigma0 (x : Z) : Z := Z.lxor (Z.lxor (rotr 7 x) (rotr 18 x)) (Z.shiftr x 3).
Definition sigma1 (x : Z) : Z := Z.lxor (Z.lxor (rotr 17 x) (rotr 19 x)) (Z.shiftr x 10).

(** The constants are taken from the first primes: the round constants are
    the first 32 bits of the fractional parts of their cube roots, the
    initial hash value those of the square roots of the first eight. *)
Definition primes : list Z :=
  [ 2; 3; 5; 7; 11; 13; 17; 19; 23; 29; 31; 37; 41; 43; 47; 53; 59; 61; 67; 71;
    73; 79; 83; 89; 97; 101; 103; 107; 109; 113; 127; 131; 137; 139; 149; 151;
    157; 163; 167; 173; 179; 181; 191; 193; 197; 199; 211; 223; 227; 229; 233;
    239; 241; 251; 257; 263; 269; 271; 277; 281; 283; 293; 307; 311 ].

(** The integer cube root of a number below [2 ^ 111], bit by bit. *)
Definition cube_root (n : Z) : Z :=
  fold_left
    (fun r b => let r' := r + 2 ^ Z.of_nat b in if r' * r' * r' <=? n then r' else r)
    (rev (seq 0 37)) 0.

Definition K : list Z :=
  Eval cbv in map (fun p => w32 (cube_root (p * 2 ^ 96))) primes.

Definition H0 : list Z :=
  Eval cbv in map (fun p => w32 (Z.sqrt (p * 2 ^ 64))) (firstn 8 primes).

(** Padding: a 1 bit, zeros up to 56 mod 64 bytes, the bit length on 8 bytes. *)
Definition be_bytes (n : nat) (x : Z) : list Z :=
  map (fun i => Z.land (Z.shiftr x (8 * Z.of_nat i)) 255) (rev (seq 0 n)).

Definition pad (msg : list Z) : list Z :=
  let len := Z.of_nat (length msg) in
  let zeros := Z.to_nat ((55 - len) mod 64) in
  msg ++ [128] ++ repeat 0 zeros ++ be_bytes 8 (8 * len).

Definition word_of_bytes (bs : list Z) : Z :=
  fold_left (fun acc b => Z.lor (Z.shiftl acc 8) b) bs 0.

(** Cut a list in pieces of [n] elements; [fuel] bounds the number of pieces. *)
Fixpoint chunks {A} (fuel n : nat) (l : list A) : list (list A) :=
  match fuel with
  | O => []
  | S k =>
      match l with
      | [] => []
      | _ => firstn n l :: chunks k n (skipn n l)
      end
  end.

Fixpoint schedule (fuel : nat) (ws : list Z) : list Z :=
  match fuel with
  | O => ws
  | S k =>
      let t := length ws in
      let w i := nth (t - i) ws 0 in
      schedule k
        (ws ++ [add32 (add32 (sigma1 (w 2%nat)) (w 7%nat))
                      (add32 (sigma0 (w 15%nat)) (w 16%nat))])
  end.

Definition round (st : list Z) (kw : Z * Z) : list Z :=
  match st with
  | [a; b; c; d; e; f; g; h] =>
      let t1 := add32 (add32 (add32 h (Sigma1 e)) (add32 (Ch e f g) (fst kw))) (snd kw) in
      let t2 := add32 (Sigma0 a) (Maj a b c) in
      [add32 t1 t2; a; b; c; add32 d t1; e; f; g]
  | _ => st
  end.

Definition compress (hs : list Z) (block : list Z) : list Z :=
  let ws := schedule 48 (map word_of_bytes (chunks 16 4 block)) in
  let st := fold_left round (combine K ws) hs in
  map (fun p => add32 (fst p) (snd p)) (combine hs st).

Definition digest_words (msg : list Z) : list Z :=
  let padded := pad msg in
  fold_left compress (chunks (length padded) 64 padded) H0.

Definition hex_chars : list ascii := chars "0123456789abcdef".

Definition hex_digit (n : Z) : ascii := nth (Z.to_nat n) hex_chars "0"%char.

Definition hex_word (w : Z) : list ascii :=
  map (fun i => hex_digit (Z.land (Z.shiftr w (4 * Z.of_nat i)) 15)) (rev (seq 0 8)).

(** The hash object: the bytes fed so far. *)
Definition t := list Byte.byte.
Definition new : t := [].
Definition update (m : t) (buf : list Byte.byte) : t := m ++ buf.
Definition hexdigest (m : t) : string :=
  string_of_list_ascii
    (concat (map hex_word (digest_words (map (fun b => Z.of_N (Byte.to_N b)) m)))).

End SHA256.

Arguments SHA256.hexdigest : simpl never.

Definition bytes_of_string (s : string) : list Byte.byte := list_byte_of_string s.

(** ** json.dumps

    The values the program serialises are lists of strings and tuples of
    integers; [json.dumps] prints both as arrays, items separated by [", "].
    Strings are escaped as [ensure_ascii=True] does. *)

#[local] Set Warnings "-register-all,-clear-no-such-hyp".

Inductive json :=
  | JStr (s : string)
  | JInt (z : Z)
  | JList (items : list json).

Module JSON.

(** The code points of a [str], from its UTF-8 encoding. *)
Fixpoint utf8_decode (bs : list Z) : list Z :=
  let cont b := Z.land b 63 in
  match bs with
  | [] => []
  | b :: rest =>
      if b <? 192 then b :: utf8_decode rest
      else
        match rest with
        | [] => [b]
        | b1 :: rest1 =>
            if b <? 224 then
              Z.lor (Z.shiftl (Z.land b 31) 6) (cont b1) :: utf8_decode rest1
            else
              match rest1 with
              | [] => [b]
              | b2 :: rest2 =>
                  if b <? 240 then
                    Z.lor (Z.shiftl (Z.land b 15) 12)
                      (Z.lor (Z.shiftl (cont b1) 6) (cont b2)) :: utf8_decode rest2
                  else
                    match rest2 with
                    | [] => [b]
                    | b3 :: rest3 =>
                        Z.lor (Z.shiftl (Z.land b 7) 18)
                          (Z.lor (Z.shiftl (cont b1) 12)
                             (Z.lor (Z.shiftl (cont b2) 6) (cont b3)))
                          :: utf8_decode rest3
                    end
              end
        end
  end.

(** ['\\u{0:04x}'.format(n)] *)
Definition u_escape (n : Z) : list ascii :=
  chars "\u" ++
  map (fun i => SHA256.hex_digit (Z.land (Z.shiftr n (4 * Z.of_nat i)) 15)) (rev (seq 0 4)).

Definition ascii_of_Z (n : Z) : ascii := ascii_of_N (Z.to_N n).

(** The replacement of one code point in [py_encode_basestring_ascii]. *)
Definition escape_char (n : Z) : list ascii :=
  if n =? 92 then chars "\\"
  else if n =? 34 then "\"%char :: [ascii_of_Z 34]
  else if n =? 8 then chars "\b"
  else if n =? 12 then chars "\f"
  else if n =? 10 then chars "\n"
  else if n =? 13 then chars "\r"
  else if n =? 9 then chars "\t"
  else if (32 <=? n) && (n <=? 126) then [ascii_of_Z n]
  else if n <? 65536 then u_escape n
  else
    let m := n - 65536 in
    u_escape (Z.lor 55296 (Z.land (Z.shiftr m 10) 1023)) ++
    u_escape (Z.lor 56320 (Z.land m 1023)).

Definition encode_basestring_ascii (s : string) : string :=
  let quote := ascii_of_Z 34 in
  let cps := utf8_decode (map (fun b => Z.of_N (Byte.to_N b)) (list_byte_of_string s)) in
  string_of_list_ascii (quote :: concat (map escape_char cps) ++ [quote]).

Fixpoint dumps (o : json) : string :=
  match o with
  | JStr s => encode_basestring_ascii s
  | JInt z => repr_int z
  | JList items =>
      "[" +:+
      (fix join (l : list json) : string :=
         match l with
         | [] => EmptyString
         | [x] => dumps x
         | x :: rest => dumps x +:+ ", " +:+ join rest
         end) items
      +:+ "]"
  end.

End JSON.

(** ** The operating system

    What the program can observe of the file system, one field per call it
    makes.  [None] stands for the call raising [OSError]. *)

Record DateTime := {
  year : Z; month : Z; day : Z; hour : Z; minute : Z; second : Z
}.

(** A member of a zip archive, as [zipfile] presents it: its [ZipInfo] fields
    and its decompressed bytes ([None] when reading it fails). *)
Record ZipInfo := {
  filename : string;
  date_time : DateTime;
  member_data : option (list Byte.byte)
}.

Record FS := {
  islink : string → bool;                       (* os.path.islink *)
  readlink : string → string;                   (* os.readlink, of a link *)
  isdir : string → bool;                        (* os.path.isdir *)
  listdir : string → option (list string);      (* os.listdir *)
  read_file : string → option (list Byte.byte); (* open(p, 'rb'), read to the end *)
  zip_members : string → option (list ZipInfo); (* zipfile.ZipFile(p, 'r').infolist() *)
  height : string → nat                         (* height of the tree below a path;
                                                   not observed, bounds the recursion *)
}.

Inductive event :=
  | EvIslink (path : string)
  | EvReadlink (path : string)
  | EvIsdir (path : string)
  | EvListdir (path : string)
  | EvOpen (path : string)
  | EvZipFile (archive : string)
  | EvZipOpen (archive name : string)
  | EvRun.

Inductive exn :=
  | OSError (path : string)
  | BadZipFile (archive name : string)
  | UnsupportedFormat (message : string)
  | OperationFailure (status : Z)
  | RecursionError.

Inductive outcome (A : Type) :=
  | Ok (a : A)
  | Raise (e : exn).
Arguments Ok {A} a.
Arguments Raise {A} e.

(** A computation: the system calls it made, in order, and how it ended. *)
Definition io (A : Type) : Type := list event * outcome A.

Definition ret {A} (a : A) : io A := ([], Ok a).
Definition raise {A} (e : exn) : io A := ([], Raise e).
Definition bind {A B} (m : io A) (k : A → io B) : io B :=
  match m with
  | (t, Raise e) => (t, Raise e)
  | (t, Ok a) => let '(t', r) := k a in (t ++ t', r)
  end.
Definition call {A} (ev : event) (r : option A) (e : exn) : io A :=
  ([ev], match r with Some a => Ok a | None => Raise e end).

Definition trace {A} (m : io A) : list event := fst m.
Definition result {A} (m : io A) : outcome A := snd m.

Notation "'let!' x ':=' m 'in' k" := (bind m (λ x, k))
  (at level 10, x name, m at level 100, k at level 200,
   format "'[v' 'let!'  x  ':='  m  'in'  '/' k ']'").

Fixpoint for_each {A B} (f : A → io B) (l : list A) : io (list B) :=
  match l with
  | [] => ret []
  | x :: rest => let! y := f x in let! ys := for_each f rest in ret (y :: ys)
  end.

Definition os_path_islink (fs : FS) (p : string) : io bool :=
  call (EvIslink p) (Some (islink fs p)) (OSError p).
Definition os_readlink (fs : FS) (p : string) : io string :=
  call (EvReadlink p) (Some (readlink fs p)) (OSError p).
Definition os_path_isdir (fs : FS) (p : string) : io bool :=
  call (EvIsdir p) (Some (isdir fs p)) (OSError p).
Definition os_listdir (fs : FS) (p : string) : io (list string) :=
  call (EvListdir p) (listdir fs p) (OSError p).
Definition open_rb (fs : FS) (p : string) : io (list Byte.byte) :=
  call (EvOpen p) (read_file fs p) (OSError p).
(** [zipfile.ZipFile(archive, 'r')]: the file is opened, which raises
    [OSError] when it does not open, and then read as an archive, which
    raises [BadZipFile] (here with no member name) when it is not one. *)
Definition ZipFile (fs : FS) (archive : string) : io (list ZipInfo) :=
  call (EvZipFile archive) (zip_members fs archive)
       (match read_file fs archive with
        | Some _ => BadZipFile archive EmptyString
        | None => OSError archive
        end).

(** [ar.open(name)]: [zipfile] finds a member by name, the last one stored
    under that name. *)
Definition getinfo (ar : list ZipInfo) (name : string) : option ZipInfo :=
  last (filter (λ info, filename info = name) ar).
Definition zip_open (archive : string) (ar : list ZipInfo) (name : string)
  : io (list Byte.byte) :=
  call (EvZipOpen archive name) (getinfo ar name ≫= member_data)
       (BadZipFile archive name).

(** ** The digests *)

Definition BUF_SIZE : nat := Z.to_nat 65536.

(** The read loop shared by [_digest_file] and [_digest_zip_archive]:
    [f] is what remains to read, [f.read(BUF_SIZE)] takes its first bytes. *)
Fixpoint read_loop (fuel : nat) (m : SHA256.t) (f : list Byte.byte) : SHA256.t :=
  match fuel with
  | O => m
  | S k =>
      let buf := take BUF_SIZE f in
      match buf with
      | [] => m
      | _ => read_loop k (SHA256.update m buf) (drop BUF_SIZE f)
      end
  end.

Definition hash_stream (f : list Byte.byte) : string :=
  SHA256.hexdigest (read_loop (S (length f)) SHA256.new f).

Definition _digest_file (fs : FS) (file : string) : io string :=
  let! f := open_rb fs file in
  ret (hash_stream f).

Definition _digest_string (s : string) : string :=
  SHA256.hexdigest (SHA256.update SHA256.new (bytes_of_string s)).

Definition _digest_json (o : json) : string := _digest_string (JSON.dumps o).

(** The body of [digest_files]; [self] is the recursive call. *)
Definition digest_files_body (self : list string → io (gmap string string)) (fs : FS)
  : list string → gmap string string → io (gmap string string) :=
  fix loop files digests :=
    match files with
    | [] => ret digests
    | file :: rest =>
        let! l := os_path_islink fs file in
        if l : bool then
          let! target := os_readlink fs file in
          loop rest (<[file := "symlink=" +:+ target]> digests)
        else
          let! d := os_path_isdir fs file in
          if d : bool then
            let! names := os_listdir fs file in
            let! sub := self (map (os_path_join file) names) in
            loop rest (sub ∪ digests)
          else
            let! h := _digest_file fs file in
            loop rest (<[file := "sha256=" +:+ h]> digests)
    end.

(** [digest_files] as an interpreter runs it that lets [depth] nested calls
    of it through: the call beyond raises [RecursionError] (CPython's
    recursion limit, about a thousand frames less those in use). *)
Fixpoint digest_files_at (depth : nat) (fs : FS) (files : list string)
  : io (gmap string string) :=
  match depth with
  | O => raise RecursionError
  | S k => digest_files_body (digest_files_at k fs) fs files ∅
  end.

Definition max_height (fs : FS) (files : list string) : nat :=
  foldr Nat.max O (map (height fs) files).

(** The file systems the program runs on: directories form a finite tree,
    each directory higher than what it lists (the program never follows a
    link into a directory); a directory cannot be opened as a file; an
    archive that [zipfile] reads is a file that opens. *)
Record fs_wf (fs : FS) : Prop := {
  wf_height : ∀ d names,
    islink fs d = false → isdir fs d = true → listdir fs d = Some names →
    (max_height fs (map (os_path_join d) names) < height fs d)%nat;
  wf_dir_not_file : ∀ p, isdir fs p = true → read_file fs p = None;
  wf_zip_is_file : ∀ p ar, zip_members fs p = Some ar → is_Some (read_file fs p)
}.

(** The same file system, its directories listed in another order. *)
Record reordered (fs fs' : FS) : Prop := {
  re_islink : ∀ p, islink fs' p = islink fs p;
  re_readlink : ∀ p, readlink fs' p = readlink fs p;
  re_isdir : ∀ p, isdir fs' p = isdir fs p;
  re_read_file : ∀ p, read_file fs' p = read_file fs p;
  re_zip_members : ∀ p, zip_members fs' p = zip_members fs p;
  re_height : ∀ p, height fs' p = height fs p;
  re_listdir : ∀ p, option_Forall2 Permutation (listdir fs' p) (listdir fs p)
}.

(** [digest_files] where the recursion limit is out of reach: the depth is
    the height of the tree, which the recursion never exceeds on a
    well-formed file system ([digest_files_terminates]), and any larger depth
    gives the same run ([digest_files_at_enough]). *)
Definition digest_files (fs : FS) (files : list string) : io (gmap string string) :=
  digest_files_at (S (max_height fs files)) fs files.

Definition date_time_json (dt : DateTime) : json :=
  JList (map JInt [year dt; month dt; day dt; hour dt; minute dt; second dt]).

(** The loop of [_digest_zip_archive] over the members of the archive. *)
Fixpoint zip_entries_loop (archive : string) (ar : list ZipInfo)
    (infos : list ZipInfo) (digests : gmap string string) : io (gmap string string) :=
  match infos with
  | [] => ret digests
  | info :: rest =>
      let digests :=
        <[archive +:+ "#" +:+ filename info +:+ "#date_time"
            := _digest_json (date_time_json (date_time info))]> digests in
      let! f := zip_open archive ar (filename info) in
      zip_entries_loop archive ar rest
        (<[archive +:+ "#" +:+ filename info := hash_stream f]> digests)
  end.

Definition _digest_zip_archive (fs : FS) (archive : string) : io (gmap string string) :=
  let! ar := ZipFile fs archive in
  let infolist := ar in
  let digests : gmap string string :=
    <[archive +:+ "#namelist"
        := _digest_json (JList (map (λ info, JStr (filename info)) infolist))]> ∅ in
  zip_entries_loop archive ar infolist digests.

Definition digest_archive (fs : FS) (archive : string) : io (gmap string string) :=
  if endswith archive ".zip" || endswith archive ".jar" || endswith archive ".war"
  then _digest_zip_archive fs archive
  else raise (UnsupportedFormat (archive +:+ " has an unsupported archive format")).

(** ** Comparison

    [compare_digests] only calls [keys()] and [get(key)], which both [dict]
    and [ChainMap] provide. *)

Class Mapping (M : Type) := {
  keys : M → gset string;
  get : M → string → option string
}.

#[export] Instance dict_Mapping : Mapping (gmap string string) := {|
  keys m := dom m;
  get m key := m !! key
|}.

(** [collections.ChainMap]: a lookup takes the first of its maps that has
    the key. *)
Record ChainMap := { maps : list (gmap string string) }.

Fixpoint chain_get (ms : list (gmap string string)) (key : string) : option string :=
  match ms with
  | [] => None
  | m :: rest => match m !! key with Some v => Some v | None => chain_get rest key end
  end.

#[export] Instance ChainMap_Mapping : Mapping ChainMap := {|
  keys cm := ⋃ (dom <$> maps cm);
  get cm key := chain_get (maps cm) key
|}.

(** The loop runs over a set, in an order Python does not fix; [order] is
    that order. *)
Definition compare_digests_in `{Mapping M} (order : gset string → list string)
    (digests1 digests2 : M) : list string :=
  let all_keys := keys digests1 ∪ keys digests2 in
  let differences :=
    filter (λ key, get digests1 key ≠ get digests2 key) (order all_keys) in
  merge_sort String.le differences.

Definition compare_digests `{Mapping M} (digests1 digests2 : M) : list string :=
  compare_digests_in elements digests1 digests2.

(** ** The test *)

Section Tester.
(** The world the operation acts on, what the program sees of it, and the
    operation: it ends in a new world or raises. *)
Context {World : Type} (view : World → FS) (func : World → outcome World).

Definition run_func (w : World) : io World := ([EvRun], func w).

Definition digest_outputs (output_files output_archives : list string) (w : World)
  : io ChainMap :=
  let! base := digest_files (view w) (output_files ++ output_archives) in
  let! entries := for_each (digest_archive (view w)) output_archives in
  ret {| maps := base :: entries |}.

Definition test_reproducibility (output_files output_archives : list string) (w : World)
  : io (list string) :=
  let! w1 := run_func w in
  let! digests1 := digest_outputs output_files output_archives w1 in
  let! w2 := run_func w1 in
  let! digests2 := digest_outputs output_files output_archives w2 in
  ret (compare_digests digests1 digests2).
End Tester.

(** ** Auxiliary notions used in the statements *)

(** What one path of the list adds to the map in [digest_files]. *)
Definition digest_one (self : list string → io (gmap string string)) (fs : FS)
    (file : string) : io (gmap string string) :=
  let! l := os_path_islink fs file in
  if l : bool then
    let! target := os_readlink fs file in
    ret {[file := "symlink=" +:+ target]}
  else
    let! d := os_path_isdir fs file in
    if d : bool then
      let! names := os_listdir fs file in
      self (map (os_path_join file) names)
    else
      let! h := _digest_file fs file in
      ret {[file := "sha256=" +:+ h]}.

(** The loop of [digest_files] on the outcomes of its steps. *)
Fixpoint merge_results (rs : list (outcome (gmap string string))) (acc : gmap string string)
  : outcome (gmap string string) :=
  match rs with
  | [] => Ok acc
  | Ok m :: rest => merge_results rest (m ∪ acc)
  | Raise e :: _ => Raise e
  end.

(** The value [digest_files] records for a path that is a link or a file. *)
Definition leaf_value (fs : FS) (p : string) : option string :=
  if islink fs p then Some ("symlink=" +:+ readlink fs p)
  else if isdir fs p then None
  else (λ f, "sha256=" +:+ hash_stream f) <$> read_file fs p.

Definition consistent (fs : FS) (m : gmap string string) : Prop :=
  ∀ key v, m !! key = Some v → leaf_value fs key = Some v.

(** Two outcomes are the same result: the same map, or a failure both times. *)
Definition same_outcome {A} (r1 r2 : outcome A) : Prop :=
  match r1, r2 with
  | Ok a1, Ok a2 => a1 = a2
  | Raise _, Raise _ => True
  | _, _ => False
  end.

Definition is_Ok {A} (r : outcome A) : Prop :=
  match r with Ok _ => True | Raise _ => False end.

(** The keys [digest_archive] writes for the members called [names], in the
    order it writes them. *)
Definition entry_keys (archive : string) (names : list string) : list string :=
  flat_map (λ name, [archive +:+ "#" +:+ name +:+ "#date_time";
                     archive +:+ "#" +:+ name]) names.

Definition archive_keys (archive : string) (names : list string) : list string :=
  (archive +:+ "#namelist") :: entry_keys archive names.

(** A value that starts with one of the two scheme tags. *)
Definition tagged (v : string) : bool :=
  String.prefix "sha256=" v || String.prefix "symlink=" v.

(** ** A small file system, for examples

    A directory [out] holding a file and a dangling link; an archive [a.zip]
    with one member; a link [l.zip] to it; an archive [n.zip] whose only
    member is called [namelist]. *)

Definition epoch : DateTime :=
  {| year := 1980; month := 1; day := 1; hour := 0; minute := 0; second := 0 |}.

Definition member (name content : string) : ZipInfo :=
  {| filename := name; date_time := epoch; member_data := Some (bytes_of_string content) |}.

Definition demo_fs : FS := {|
  islink p := bool_decide (p ∈ ["out/link"; "l.zip"]);
  readlink p := if bool_decide (p = "l.zip") then "a.zip" else "missing";
  isdir p := bool_decide (p = "out");
  listdir p := if bool_decide (p = "out") then Some ["a.txt"; "link"] else None;
  read_file p :=
    if bool_decide (p = "out/a.txt") then Some (bytes_of_string "A")
    else if bool_decide (p ∈ ["a.zip"; "l.zip"]) then Some (bytes_of_string "PK-a")
    else if bool_decide (p = "n.zip") then Some (bytes_of_string "PK-n")
    else None;
  zip_members p :=
    if bool_decide (p ∈ ["a.zip"; "l.zip"]) then Some [member "x" "1"]
    else if bool_decide (p = "n.zip") then Some [member "namelist" "1"]
    else None;
  height p := if bool_decide (p = "out") then 1%nat else 0%nat
|}.

(** A world for examples: the number of runs so far, over [demo_fs]; the
    operation succeeds [ok_runs] times, then exits with status 1. *)
Definition demo_func (ok_runs : nat) (runs : nat) : outcome nat :=
  if (runs <? ok_runs)%nat then Ok (S runs) else Raise (OperationFailure 1).

(** A file system with the one file [out.txt], for the scenarios of the
    specification. *)
Definition out_fs (content : string) : FS := {|
  islink p := false;
  readlink p := EmptyString;
  isdir p := false;
  listdir p := None;
  read_file p :=
    if bool_decide (p = "out.txt") then Some (bytes_of_string content) else None;
  zip_members p := None;
  height p := 0%nat
|}.

(** The file holds ["A"] after the first run and [second] after the second. *)
Definition out_view (second : string) (runs : nat) : FS :=
  out_fs (if (runs <=? 1)%nat then "A" else second).

(** ** Further notions: what a call may touch, and the command line *)

(** A system call that respects the kinds of the paths: only a link is read
    as a link, only a directory that is not a link is listed, only a path
    that is neither is opened. *)
Definition respects_links (fs : FS) (ev : event) : Prop :=
  match ev with
  | EvIslink _ => True
  | EvReadlink p => islink fs p = true
  | EvIsdir p => islink fs p = false
  | EvListdir p => islink fs p = false ∧ isdir fs p = true
  | EvOpen p => islink fs p = false ∧ isdir fs p = false
  | EvZipFile _ | EvZipOpen _ _ | EvRun => False
  end.

(** A call that [digest_outputs] can make: any but running the operation. *)
Definition not_a_run (ev : event) : Prop := ev ≠ EvRun.

(** What [CLI.test] prints for a list of differences, line by line. *)
Definition report (differences : list string) : list string :=
  if (length differences =? 0)%nat then
    ["The command is reproducible!"]
  else
    ["The command is not reproducible: the following files are produced differently";
     "by the second invocation:"]
    ++ map (λ file, "    " +:+ file) differences.

(** [CLI.test], from the parsed arguments: [file] and [archive] are [None]
    when the option was never given ([args.file or []]); [func] runs the
    command and raises when it exits with a status other than zero. *)
Definition CLI_test {World : Type} (view : World → FS) (func : World → outcome World)
    (file archive : option (list string)) (w : World) : io (list string) :=
  let! differences :=
    test_reproducibility view func (default [] file) (default [] archive) w in
  ret (report differences).

(** The paths [digest_files] comes to from a list: the paths of the list and,
    below a directory that is not a link, the joined names it lists. *)
Inductive reachable (fs : FS) (files : list string) : string → Prop :=
  | reachable_listed p : p ∈ files → reachable fs files p
  | reachable_child d names name :
      reachable fs files d →
      islink fs d = false → isdir fs d = true → listdir fs d = Some names →
      name ∈ names →
      reachable fs files (os_path_join d name).

(** The characters of a printed integer. *)
Definition digit_chars : list ascii := chars "-0123456789".

(** The items of a printed array of integers, without the brackets. *)
Fixpoint join_ints (l : list Z) : list ascii :=
  match l with
  | [] => []
  | [x] => chars (repr_int x)
  | x :: rest => chars (repr_int x) ++ chars ", " ++ join_ints rest
  end.



(** * Properties *)

(** ** The comparison *)

Section Compare.
Context `{Mapping M}.
(** What [dict] and [ChainMap] guarantee: a key that [get] finds is a key
    of the map. *)
Hypothesis get_keys : ∀ (m : M) key, get m key ≠ None → key ∈ keys m.
Variable order : gset string → list string.
Hypothesis order_elem : ∀ (s : gset string) key, key ∈ order s ↔ key ∈ s.

Lemma elem_of_compare_digests_in (d1 d2 : M) key :
  key ∈ compare_digests_in order d1 d2 ↔ get d1 key ≠ get d2 key.
Proof.
  unfold compare_digests_in.
  rewrite merge_sort_Permutation, list_elem_of_filter, order_elem, elem_of_union.
  split; [by intros [? _]|].
  intros Hne. split; [done|].
  destruct (get d1 key) eqn:E1.
  - left. apply get_keys. by rewrite E1.
  - right. apply get_keys. by intros E2; rewrite E2 in Hne.
Qed.

Lemma compare_digests_in_sorted (d1 d2 : M) :
  StronglySorted String.le (compare_digests_in order d1 d2).
Proof. apply (StronglySorted_merge_sort _). Qed.
End Compare.

Lemma dict_get_keys (m : gmap string string) key : get m key ≠ None → key ∈ keys m.
Proof. simpl. rewrite elem_of_dom, <- not_eq_None_Some. done. Qed.

Lemma chain_get_keys (cm : ChainMap) key : get cm key ≠ None → key ∈ keys cm.
Proof.
  destruct cm as [ms]. simpl. induction ms as [|m ms IH]; simpl; [done|].
  rewrite elem_of_union, elem_of_dom.
  destruct (m !! key) eqn:E; [by left; eexists|]. intros; right. by apply IH.
Qed.

Lemma compare_digests_in_NoDup `{Mapping M} order (d1 d2 : M) :
  (∀ s, NoDup (order s)) → NoDup (compare_digests_in order d1 d2).
Proof.
  intros Hnd. unfold compare_digests_in.
  rewrite merge_sort_Permutation. by apply NoDup_filter.
Qed.

(** The order in which the set of keys is traversed does not show in the
    result: the final sort fixes it. *)
Lemma compare_digests_in_order `{Mapping M} order (d1 d2 : M) :
  (∀ (m : M) key, get m key ≠ None → key ∈ keys m) →
  (∀ s, NoDup (order s)) → (∀ (s : gset string) key, key ∈ order s ↔ key ∈ s) →
  compare_digests_in order d1 d2 = compare_digests d1 d2.
Proof.
  intros Hlaw Hnd Hel.
  apply (StronglySorted_unique String.le).
  - by apply compare_digests_in_sorted.
  - by apply compare_digests_in_sorted.
  - apply NoDup_Permutation.
    + by apply compare_digests_in_NoDup.
    + apply compare_digests_in_NoDup. intros; apply NoDup_elements.
    + intros key. unfold compare_digests.
      rewrite !elem_of_compare_digests_in; try done.
      intros; apply elem_of_elements.
Qed.

Lemma elem_of_compare_digests (A B : gmap string string) key :
  key ∈ compare_digests A B ↔ get A key ≠ get B key.
Proof.
  apply elem_of_compare_digests_in.
  - apply dict_get_keys.
  - intros; apply elem_of_elements.
Qed.

(** C1: a key is in [compare_digests A B] exactly when [A.get(key)] and
    [B.get(key)] differ, a key of only one of the two maps is therefore always
    in it, and the result is in ascending lexicographic order (and without
    repetition, so strictly ascending). *)
Theorem compare_digests_spec (A B : gmap string string) :
  (∀ key, key ∈ compare_digests A B ↔ get A key ≠ get B key)
  ∧ (∀ key, is_Some (A !! key) → B !! key = None → key ∈ compare_digests A B)
  ∧ (∀ key, A !! key = None → is_Some (B !! key) → key ∈ compare_digests A B)
  ∧ StronglySorted String.le (compare_digests A B)
  ∧ NoDup (compare_digests A B).
Proof.
  pose proof (elem_of_compare_digests A B) as Hiff.
  split; [exact Hiff|]. repeat split.
  - intros key [v Hv] Hn. apply Hiff. simpl. rewrite Hv, Hn. done.
  - intros key Hn [v Hv]. apply Hiff. simpl. rewrite Hv, Hn. done.
  - apply compare_digests_in_sorted.
  - apply compare_digests_in_NoDup. intros; apply NoDup_elements.
Qed.

Lemma compare_digests_spec_witness :
  "out.txt" ∈ compare_digests ({[ "out.txt" := "sha256=00" ]} : gmap string string) ∅.
Proof.
  apply (proj1 (proj2 (compare_digests_spec {[ "out.txt" := "sha256=00" ]} ∅))).
  - exists "sha256=00". apply lookup_singleton_eq.
  - apply lookup_empty.
Defined.

(** The third scenario of the specification: the archive file and the
    timestamp of its entry differ, its content and its name list do not. *)
Example compare_digests_scenario :
  compare_digests
    (list_to_map [("a.zip", "sha256=01"); ("a.zip#namelist", "aa");
                  ("a.zip#x#date_time", "bb"); ("a.zip#x", "cc")] : gmap string string)
    (list_to_map [("a.zip#x", "cc"); ("a.zip#x#date_time", "dd");
                  ("a.zip#namelist", "aa"); ("a.zip", "sha256=02")])
  = ["a.zip"; "a.zip#x#date_time"].
Proof. vm_compute. reflexivity. Qed.

(** C9: comparing a map with itself gives the empty list, and swapping the
    two maps gives the same set of keys. *)
Theorem compare_digests_refl_sym :
  (∀ M0 : gmap string string, compare_digests M0 M0 = [])
  ∧ (∀ M1 M2 : gmap string string,
       (list_to_set (compare_digests M1 M2) : gset string)
       = list_to_set (compare_digests M2 M1)).
Proof.
  split.
  - intros M0. destruct (compare_digests M0 M0) as [|key l] eqn:E; [done|].
    assert (Hin : key ∈ compare_digests M0 M0) by (rewrite E; left).
    apply elem_of_compare_digests in Hin. done.
  - intros M1 M2. apply set_eq. intros key. rewrite !elem_of_list_to_set.
    rewrite !elem_of_compare_digests.
    split; intros Hne Heq; by apply Hne.
Qed.

(** ** Computations *)

Lemma result_bind {A B} (m : io A) (k : A → io B) :
  result (bind m k) = match result m with Ok a => result (k a) | Raise e => Raise e end.
Proof. destruct m as [t [a|e]]; simpl; [|done]. by destruct (k a). Qed.

Lemma bind_assoc {A B C} (m : io A) (k : A → io B) (k' : B → io C) :
  bind (bind m k) k' = bind m (λ a, bind (k a) k').
Proof.
  destruct m as [t [a|e]]; simpl; [|done].
  destruct (k a) as [t1 [b|e]]; simpl; [|done].
  destruct (k' b) as [t2 r]. by rewrite app_assoc.
Qed.

Lemma bind_ret_l {A B} (a : A) (k : A → io B) : bind (ret a) k = k a.
Proof. unfold bind, ret. by destruct (k a). Qed.

Lemma bind_ret_r {A} (m : io A) : bind m ret = m.
Proof. destruct m as [t [a|e]]; simpl; [|done]. by rewrite app_nil_r. Qed.

Lemma bind_ext {A B} (m : io A) (k k' : A → io B) :
  (∀ a, k a = k' a) → bind m k = bind m k'.
Proof. intros Hk. destruct m as [t [a|e]]; simpl; [|done]. by rewrite Hk. Qed.

Lemma bind_call_some {A B} ev (a : A) e (k : A → io B) :
  bind (call ev (Some a) e) k = (ev :: trace (k a), result (k a)).
Proof. unfold call; simpl. by destruct (k a). Qed.

(** ** The file digester *)

Lemma digest_files_body_cons self fs file rest acc :
  digest_files_body self fs (file :: rest) acc
  = let! m := digest_one self fs file in digest_files_body self fs rest (m ∪ acc).
Proof.
  unfold digest_one. cbn [digest_files_body].
  rewrite bind_assoc. apply bind_ext. intros [|].
  - rewrite bind_assoc. apply bind_ext. intros target.
    by rewrite bind_ret_l, insert_union_singleton_l.
  - rewrite bind_assoc. apply bind_ext. intros [|].
    + rewrite bind_assoc. done.
    + rewrite bind_assoc. apply bind_ext. intros h.
      by rewrite bind_ret_l, insert_union_singleton_l.
Qed.

Lemma result_digest_files_body self fs files acc :
  result (digest_files_body self fs files acc)
  = merge_results (map (λ p, result (digest_one self fs p)) files) acc.
Proof.
  revert acc. induction files as [|file rest IH]; intros acc; [done|].
  rewrite digest_files_body_cons, result_bind. simpl.
  destruct (result (digest_one self fs file)); [apply IH|done].
Qed.

Lemma merge_results_app rs1 rs2 acc :
  merge_results (rs1 ++ rs2) acc
  = match merge_results rs1 acc with
    | Ok m => merge_results rs2 m
    | Raise e => Raise e
    end.
Proof.
  revert acc. induction rs1 as [|[m|e] rs1 IH]; intros acc; simpl; auto.
Qed.

Lemma merge_results_all_Ok rs acc m :
  merge_results rs acc = Ok m → ∀ r, r ∈ rs → is_Ok r.
Proof.
  revert acc. induction rs as [|[m1|e] rs IH]; intros acc Hm r Hr; simpl in *.
  - by apply elem_of_nil in Hr.
  - apply elem_of_cons in Hr as [->|Hr]; [done|]. by eapply IH.
  - done.
Qed.

Lemma merge_results_is_Ok rs acc :
  (∀ r, r ∈ rs → is_Ok r) → is_Ok (merge_results rs acc).
Proof.
  revert acc. induction rs as [|[m1|e] rs IH]; intros acc Hall; simpl.
  - done.
  - apply IH. intros r Hr. apply Hall. by right.
  - apply (Hall (Raise e)). by left.
Qed.

Lemma merge_results_dom rs acc m :
  merge_results rs acc = Ok m →
  ∀ key, key ∈ dom m ↔ key ∈ dom acc ∨ ∃ m', Ok m' ∈ rs ∧ key ∈ dom m'.
Proof.
  revert acc. induction rs as [|[m1|e] rs IH]; intros acc Hm key; simpl in *.
  - injection Hm as <-. split; [by left|]. intros [?|(m' & Hin & _)]; [done|].
    by apply elem_of_nil in Hin.
  - rewrite (IH _ Hm key), dom_union, elem_of_union. split.
    + intros [[?|?]|(m' & Hin & ?)].
      * right. exists m1. split; [by left|done].
      * by left.
      * right. exists m'. split; [by right|done].
    + intros [?|(m' & Hin & ?)].
      * left. by right.
      * apply elem_of_cons in Hin as [[= ->]|Hin].
        -- left. by left.
        -- right. by exists m'.
  - done.
Qed.

Lemma consistent_union fs (m1 m2 : gmap string string) :
  consistent fs m1 → consistent fs m2 → consistent fs (m1 ∪ m2).
Proof.
  intros H1 H2 key v Hv. apply lookup_union_Some_raw in Hv as [?|[_ ?]]; eauto.
Qed.

Lemma consistent_eq fs (m1 m2 : gmap string string) :
  consistent fs m1 → consistent fs m2 → dom m1 = dom m2 → m1 = m2.
Proof.
  intros H1 H2 Hdom. apply map_eq. intros key.
  destruct (m1 !! key) as [v1|] eqn:E1, (m2 !! key) as [v2|] eqn:E2; try done.
  - apply H1 in E1. apply H2 in E2. congruence.
  - apply (elem_of_dom_2 m1) in E1. rewrite Hdom in E1.
    apply not_elem_of_dom in E2. done.
  - apply (elem_of_dom_2 m2) in E2. rewrite <- Hdom in E2.
    apply not_elem_of_dom in E1. done.
Qed.

Lemma merge_results_consistent fs rs acc m :
  (∀ m', Ok m' ∈ rs → consistent fs m') → consistent fs acc →
  merge_results rs acc = Ok m → consistent fs m.
Proof.
  revert acc. induction rs as [|[m1|e] rs IH]; intros acc Hrs Hacc Hm; simpl in *.
  - by injection Hm as <-.
  - eapply IH; [| |exact Hm].
    + intros m' Hin. apply Hrs. by right.
    + apply consistent_union; [|done]. apply Hrs. by left.
  - done.
Qed.

Lemma consistent_empty fs : consistent fs ∅.
Proof. intros key v Hv. by rewrite lookup_empty in Hv. Qed.

Lemma digest_one_consistent self fs file m :
  (∀ files m', result (self files) = Ok m' → consistent fs m') →
  result (digest_one self fs file) = Ok m → consistent fs m.
Proof.
  intros Hself. unfold digest_one, os_path_islink, os_readlink, os_path_isdir.
  rewrite bind_call_some.
  destruct (islink fs file) eqn:El.
  - rewrite bind_call_some. simpl.
    intros [= <-] key v Hv. apply lookup_singleton_Some in Hv as [<- <-].
    unfold leaf_value. by rewrite El.
  - rewrite bind_call_some. destruct (isdir fs file) eqn:Ed.
    + unfold os_listdir, call. destruct (listdir fs file) as [names|]; simpl; [|done].
      destruct (self _) as [t r] eqn:Es. simpl. intros ->.
      eapply Hself. by rewrite Es.
    + unfold _digest_file, open_rb, call.
      destruct (read_file fs file) as [f|] eqn:Er; simpl; [|done].
      intros [= <-] key v Hv. apply lookup_singleton_Some in Hv as [<- <-].
      unfold leaf_value. by rewrite El, Ed, Er.
Qed.

Lemma digest_files_at_consistent fs depth files m :
  result (digest_files_at depth fs files) = Ok m → consistent fs m.
Proof.
  revert files m. induction depth as [|k IH]; intros files m; simpl; [done|].
  rewrite result_digest_files_body. apply merge_results_consistent.
  - intros m' Hin. apply list_elem_of_fmap in Hin as (p & Hp & _).
    symmetry in Hp. eapply digest_one_consistent; [|exact Hp]. apply IH.
  - apply consistent_empty.
Qed.

(** C6: for a symbolic link [s], [digest_files([s])] is the one-entry map
    from [s] to ["symlink="] followed by the link's target, on every file
    system (so whether or not the target exists); the only system calls made
    are the link test and [readlink] of [s]: nothing is opened or followed. *)
Theorem digest_files_symlink (fs : FS) (s : string) :
  islink fs s = true →
  digest_files fs [s]
  = ([EvIslink s; EvReadlink s], Ok {[s := "symlink=" +:+ readlink fs s]}).
Proof.
  intros Hl. unfold digest_files. cbn [digest_files_at digest_files_body].
  unfold os_path_islink, os_readlink. rewrite bind_call_some, Hl.
  rewrite bind_call_some. simpl. by rewrite insert_empty.
Qed.

Lemma digest_files_symlink_witness :
  islink demo_fs "out/link" = true
  ∧ read_file demo_fs (readlink demo_fs "out/link") = None
  ∧ digest_files demo_fs ["out/link"]
    = ([EvIslink "out/link"; EvReadlink "out/link"],
       Ok {[ "out/link" := "symlink=missing" ]}).
Proof.
  split; [reflexivity|]. split; [reflexivity|].
  apply (digest_files_symlink demo_fs "out/link"). reflexivity.
Defined.

(** ** The archive digester *)

Lemma chars_app (s1 s2 : string) : chars (s1 +:+ s2) = chars s1 ++ chars s2.
Proof. induction s1 as [|c s1 IH]; simpl; [done|]. by rewrite IH. Qed.

Lemma endswith_spec (s suffix : string) :
  endswith s suffix = true ↔ ∃ stem, s = stem +:+ suffix.
Proof.
  unfold endswith. rewrite bool_decide_eq_true. split.
  - intros [k Hk]. exists (string_of_list_ascii k).
    rewrite <- (string_of_list_ascii_of_string s).
    rewrite <- (string_of_list_ascii_of_string (_ +:+ _)).
    f_equal. fold (chars s). fold (chars (string_of_list_ascii k +:+ suffix)).
    rewrite Hk, chars_app. unfold chars at 3.
    by rewrite list_ascii_of_string_of_list_ascii.
  - intros [stem ->]. exists (chars stem). apply chars_app.
Qed.

(** C8: on a path that ends in none of [.zip], [.jar], [.war],
    [digest_archive] raises the unsupported-format exception without having
    made any system call, whatever the file system holds at that path. *)
Theorem digest_archive_unsupported (fs : FS) (archive : string) :
  (∀ ext, ext ∈ [".zip"; ".jar"; ".war"] → ¬ ∃ stem, archive = stem +:+ ext) →
  digest_archive fs archive
  = ([], Raise (UnsupportedFormat (archive +:+ " has an unsupported archive format"))).
Proof.
  intros Hext. unfold digest_archive.
  assert (Hno : ∀ ext, ext ∈ [".zip"; ".jar"; ".war"] → endswith archive ext = false).
  { intros ext Hin. apply not_true_is_false. rewrite endswith_spec. by apply Hext. }
  rewrite !Hno; [done| | |]; set_solver.
Qed.

Lemma digest_archive_unsupported_witness :
  read_file demo_fs "a.tar" = None
  ∧ digest_archive demo_fs "a.tar"
    = ([], Raise (UnsupportedFormat "a.tar has an unsupported archive format")).
Proof.
  split; [reflexivity|].
  apply (digest_archive_unsupported demo_fs "a.tar").
  intros ext Hin Hsuf. apply endswith_spec in Hsuf.
  repeat (apply elem_of_cons in Hin as [->|Hin]; [by vm_compute in Hsuf|]).
  by apply elem_of_nil in Hin.
Defined.

(** ** The test *)

(** C3: when the operation raises on its first call, [test_reproducibility]
    raises the same exception having done nothing else; when it raises on its
    second call, [test_reproducibility] raises the same exception right after
    that call: the trace ends with the failed run, no digest is taken after
    it, and no list of differences (empty or not) is returned. *)
Theorem test_reproducibility_failure {World : Type} (view : World → FS)
    (func : World → outcome World) (output_files output_archives : list string)
    (w w1 : World) (e : exn) (t1 : list event) (digests1 : ChainMap) :
  (func w = Raise e →
     test_reproducibility view func output_files output_archives w
     = ([EvRun], Raise e))
  ∧ (func w = Ok w1 →
     digest_outputs view output_files output_archives w1 = (t1, Ok digests1) →
     func w1 = Raise e →
     test_reproducibility view func output_files output_archives w
     = (EvRun :: t1 ++ [EvRun], Raise e)).
Proof.
  unfold test_reproducibility, run_func. split.
  - intros ->. done.
  - intros -> Hd1 Hf. simpl. rewrite Hd1. simpl. rewrite Hf. done.
Qed.

Lemma test_reproducibility_failure_witness :
  test_reproducibility (λ _, demo_fs) (demo_func 0) ["out"] [] 0%nat
  = ([EvRun], Raise (OperationFailure 1))
  ∧ result (test_reproducibility (λ _, demo_fs) (demo_func 1) ["out"] [] 0%nat)
    = Raise (OperationFailure 1).
Proof.
  split.
  - apply (test_reproducibility_failure (λ _, demo_fs) (demo_func 0) ["out"] []
             0%nat 0%nat (OperationFailure 1) [] {| maps := [] |}).
    reflexivity.
  - destruct (digest_outputs (λ _ : nat, demo_fs) ["out"] [] 1%nat) as [t1 r1] eqn:E.
    destruct r1 as [d1|e1]; [|by vm_compute in E].
    rewrite (proj2 (test_reproducibility_failure (λ _, demo_fs) (demo_func 1) ["out"] []
             0%nat 1%nat (OperationFailure 1) t1 d1)); done.
Defined.

(** The first two scenarios of the specification: the same content twice
    gives no difference, another content the second time gives [out.txt]. *)
Example test_reproducibility_same :
  test_reproducibility (out_view "A") (demo_func 2) ["out.txt"] [] 0%nat
  = ([EvRun; EvIslink "out.txt"; EvIsdir "out.txt"; EvOpen "out.txt";
      EvRun; EvIslink "out.txt"; EvIsdir "out.txt"; EvOpen "out.txt"],
     Ok []).
Proof. vm_compute. reflexivity. Qed.

Example test_reproducibility_differs :
  result (test_reproducibility (out_view "B") (demo_func 2) ["out.txt"] [] 0%nat)
  = Ok ["out.txt"].
Proof. vm_compute. reflexivity. Qed.

(** ** Depth of the recursion *)

Lemma max_height_le fs files n :
  (max_height fs files ≤ n)%nat ↔ ∀ p, p ∈ files → (height fs p ≤ n)%nat.
Proof.
  unfold max_height. induction files as [|q files IH]; simpl.
  - split; [|lia]. intros _ p Hp. by apply elem_of_nil in Hp.
  - rewrite Nat.max_lub_iff, IH. split.
    + intros [Hq Hall] p Hp. apply elem_of_cons in Hp as [->|Hp]; auto.
    + intros Hall. split; [apply Hall; by left|]. intros p Hp. apply Hall. by right.
Qed.

Lemma max_height_elem fs files p :
  p ∈ files → (height fs p ≤ max_height fs files)%nat.
Proof. intros Hp. by apply (max_height_le fs files (max_height fs files)). Qed.

Lemma max_height_same fs fs' files files' :
  (∀ p, height fs' p = height fs p) → (∀ p, p ∈ files' ↔ p ∈ files) →
  max_height fs' files' = max_height fs files.
Proof.
  intros Hh Hel. apply Nat.le_antisymm; apply max_height_le; intros p Hp.
  - rewrite Hh. apply max_height_elem. by apply Hel.
  - rewrite <- Hh. apply max_height_elem. by apply Hel.
Qed.

Lemma digest_files_body_ext self self' fs files acc :
  (∀ p, p ∈ files → digest_one self fs p = digest_one self' fs p) →
  digest_files_body self fs files acc = digest_files_body self' fs files acc.
Proof.
  revert acc. induction files as [|file rest IH]; intros acc Hone; [done|].
  rewrite !digest_files_body_cons. rewrite (Hone file) by (by left).
  apply bind_ext. intros m. apply IH. intros p Hp. apply Hone. by right.
Qed.

(** Any depth above the height of the tree gives the same computation. *)
Lemma digest_files_at_enough fs :
  fs_wf fs → ∀ n m files,
  (max_height fs files < n)%nat → (max_height fs files < m)%nat →
  digest_files_at n fs files = digest_files_at m fs files.
Proof.
  intros Hwf. induction n as [|n IH]; intros m files Hn Hm; [lia|].
  destruct m as [|m]; [lia|]. simpl.
  apply digest_files_body_ext. intros p Hp.
  unfold digest_one, os_path_islink, os_path_isdir. rewrite !bind_call_some.
  destruct (islink fs p) eqn:El; [done|]. rewrite ?bind_call_some.
  destruct (isdir fs p) eqn:Ed; [|done].
  unfold os_listdir, call. destruct (listdir fs p) as [names|] eqn:Els; [|done].
  pose proof (wf_height fs Hwf p names El Ed Els) as Hlt.
  pose proof (max_height_elem fs files p Hp).
  simpl. rewrite (IH m); [done|lia|lia].
Qed.

(** ** Insensitivity to the order and the multiplicity of the paths *)

Lemma same_outcome_refl {A} (r : outcome A) : same_outcome r r.
Proof. by destruct r. Qed.

Lemma merge_results_Raise rs acc e :
  merge_results rs acc = Raise e → Raise e ∈ rs.
Proof.
  revert acc. induction rs as [|[m|e'] rs IH]; intros acc Hm; simpl in *.
  - done.
  - right. by eapply IH.
  - injection Hm as ->. by left.
Qed.

Lemma merge_results_same fs rs rs' acc :
  (∀ r, r ∈ rs → ∃ r', r' ∈ rs' ∧ same_outcome r r') →
  (∀ r', r' ∈ rs' → ∃ r, r ∈ rs ∧ same_outcome r r') →
  (∀ m, Ok m ∈ rs → consistent fs m) →
  (∀ m, Ok m ∈ rs' → consistent fs m) →
  consistent fs acc →
  same_outcome (merge_results rs acc) (merge_results rs' acc).
Proof.
  intros Hl Hr Hc Hc' Hacc.
  destruct (merge_results rs acc) as [m|e] eqn:E, (merge_results rs' acc) as [m'|e'] eqn:E';
    simpl; [| | |done].
  - apply (consistent_eq fs);
      [exact (merge_results_consistent fs rs acc m Hc Hacc E)
      |exact (merge_results_consistent fs rs' acc m' Hc' Hacc E')|].
    apply set_eq. intros key.
    rewrite (merge_results_dom _ _ _ E key), (merge_results_dom _ _ _ E' key).
    split; (intros [?|(m1 & Hin & Hk)]; [by left|right]).
    + destruct (Hl _ Hin) as ([m1'|e1] & Hin' & Hs); simpl in Hs; [subst|done]. eauto.
    + destruct (Hr _ Hin) as ([m1'|e1] & Hin' & Hs); simpl in Hs; [subst|done]. eauto.
  - apply merge_results_Raise in E'.
    destruct (Hr _ E') as ([m1|e1] & Hin & Hs); simpl in Hs; [done|].
    by apply (merge_results_all_Ok _ _ _ E) in Hin.
  - apply merge_results_Raise in E.
    destruct (Hl _ E) as ([m1|e1] & Hin & Hs); simpl in Hs; [done|].
    by apply (merge_results_all_Ok _ _ _ E') in Hin.
Qed.

Lemma leaf_value_reordered fs fs' p :
  reordered fs fs' → leaf_value fs' p = leaf_value fs p.
Proof.
  intros Hre. unfold leaf_value.
  by rewrite (re_islink _ _ Hre), (re_readlink _ _ Hre), (re_isdir _ _ Hre),
    (re_read_file _ _ Hre).
Qed.

Lemma consistent_reordered fs fs' m :
  reordered fs fs' → consistent fs' m → consistent fs m.
Proof.
  intros Hre Hc key v Hv. rewrite <- (leaf_value_reordered fs fs' key Hre). by apply Hc.
Qed.

Lemma reordered_refl fs : reordered fs fs.
Proof.
  split; done.
Qed.

Lemma digest_one_at_consistent fs depth p m :
  result (digest_one (digest_files_at depth fs) fs p) = Ok m → consistent fs m.
Proof.
  apply digest_one_consistent. intros files m'. apply digest_files_at_consistent.
Qed.

Lemma result_digest_one_dir self fs d names :
  islink fs d = false → isdir fs d = true → listdir fs d = Some names →
  result (digest_one self fs d) = result (self (map (os_path_join d) names)).
Proof.
  intros El Ed Els. unfold digest_one, os_path_islink, os_path_isdir, os_listdir.
  rewrite bind_call_some, El, bind_call_some, Ed, Els, bind_call_some. done.
Qed.

(** The result is a function of the set of paths and of the file system up
    to the order of its listings. *)
Lemma digest_files_at_reordered fs fs' :
  reordered fs fs' → ∀ depth files files',
  (∀ p, p ∈ files' ↔ p ∈ files) →
  same_outcome (result (digest_files_at depth fs' files'))
               (result (digest_files_at depth fs files)).
Proof.
  intros Hre. induction depth as [|k IH]; intros files files' Hel; [done|].
  simpl. rewrite !result_digest_files_body.
  assert (Hone : ∀ p,
    same_outcome (result (digest_one (digest_files_at k fs') fs' p))
                 (result (digest_one (digest_files_at k fs) fs p))).
  { intros p. unfold digest_one, os_path_islink, os_path_isdir, os_readlink.
    rewrite !bind_call_some, (re_islink _ _ Hre), (re_isdir _ _ Hre), (re_readlink _ _ Hre).
    destruct (islink fs p); [done|].
    destruct (isdir fs p).
    - unfold os_listdir.
      destruct (re_listdir _ _ Hre p) as [names' names Hp|]; [|done].
      rewrite !bind_call_some. simpl. apply IH. intros q. by rewrite Hp.
    - unfold _digest_file, open_rb. rewrite (re_read_file _ _ Hre).
      destruct (read_file fs p); done. }
  apply (merge_results_same fs).
  - intros r Hr. apply list_elem_of_fmap in Hr as (p & -> & Hp).
    eexists. split; [|apply Hone]. apply list_elem_of_fmap. exists p.
    split; [done|]. by apply Hel.
  - intros r Hr. apply list_elem_of_fmap in Hr as (p & -> & Hp).
    eexists. split; [|apply Hone]. apply list_elem_of_fmap. exists p.
    split; [done|]. by apply Hel.
  - intros m Hin. apply list_elem_of_fmap in Hin as (p & Hp & _).
    apply (consistent_reordered fs fs'); [done|].
    symmetry in Hp. by eapply digest_one_at_consistent.
  - intros m Hin. apply list_elem_of_fmap in Hin as (p & Hp & _).
    symmetry in Hp. by eapply digest_one_at_consistent.
  - apply consistent_empty.
Qed.

Lemma digest_files_reordered fs fs' files files' :
  reordered fs fs' → (∀ p, p ∈ files' ↔ p ∈ files) →
  same_outcome (result (digest_files fs' files')) (result (digest_files fs files)).
Proof.
  intros Hre Hel. unfold digest_files.
  rewrite (max_height_same fs fs' files files'); [|apply Hre|done].
  by apply digest_files_at_reordered.
Qed.

Lemma demo_fs_wf : fs_wf demo_fs.
Proof.
  split.
  - intros d names _ Hd Hn. simpl in *.
    apply bool_decide_eq_true in Hd as ->. injection Hn as <-.
    vm_compute. lia.
  - intros p Hd. simpl in *. apply bool_decide_eq_true in Hd as ->. reflexivity.
  - intros p ar. simpl. repeat case_bool_decide; try done; subst; eauto;
      set_solver.
Qed.

(** Where the recursion limit is out of reach, as in [digest_files] on a
    well-formed file system: for a directory [d], [digest_files([d])] gives
    what [digest_files] gives on the list of [d]'s entries, each joined to
    [d], and that result is the same for every order of the entries. *)
Lemma digest_files_directory (fs : FS) (d : string) (names : list string) :
  fs_wf fs → islink fs d = false → isdir fs d = true → listdir fs d = Some names →
  result (digest_files fs [d]) = result (digest_files fs (map (os_path_join d) names))
  ∧ (∀ names', names' ≡ₚ names →
       same_outcome (result (digest_files fs (map (os_path_join d) names')))
                    (result (digest_files fs [d])))
  ∧ (∀ fs', reordered fs fs' →
       same_outcome (result (digest_files fs' [d])) (result (digest_files fs [d]))).
Proof.
  intros Hwf El Ed Els.
  assert (Heq : result (digest_files fs [d])
                = result (digest_files fs (map (os_path_join d) names))).
  { unfold digest_files at 1. cbn [digest_files_at].
    rewrite result_digest_files_body. cbn [map merge_results].
    rewrite (result_digest_one_dir _ fs d names El Ed Els).
    pose proof (wf_height fs Hwf d names El Ed Els) as Hlt.
    rewrite (digest_files_at_enough fs Hwf _
               (S (max_height fs (map (os_path_join d) names)))).
    - fold (digest_files fs (map (os_path_join d) names)).
      destruct (result (digest_files fs _)); [|done]. by rewrite (right_id_L ∅ (∪)).
    - unfold max_height at 2. simpl. lia.
    - lia. }
  split; [exact Heq|]. split.
  - intros names' Hp. rewrite Heq.
    apply digest_files_reordered; [apply reordered_refl|].
    intros p. by rewrite Hp.
  - intros fs' Hre. by apply digest_files_reordered.
Qed.

Lemma digest_files_directory_witness :
  result (digest_files demo_fs ["out"])
  = result (digest_files demo_fs ["out/a.txt"; "out/link"])
  ∧ same_outcome (result (digest_files demo_fs ["out/link"; "out/a.txt"]))
                 (result (digest_files demo_fs ["out"])).
Proof.
  destruct (digest_files_directory demo_fs "out" ["a.txt"; "link"] demo_fs_wf
              eq_refl eq_refl eq_refl) as (Heq & Hperm & _).
  split; [exact Heq|].
  apply (Hperm ["link"; "a.txt"]). apply Permutation_swap.
Defined.

(** C10: listing again a path that the list already has does not change the
    result of [digest_files], the map or the exception. *)
Theorem digest_files_duplicate (fs : FS) (files : list string) (p : string) :
  p ∈ files →
  result (digest_files fs (files ++ [p])) = result (digest_files fs files).
Proof.
  intros Hp. unfold digest_files.
  rewrite (max_height_same fs fs files (files ++ [p])); [|done|].
  2:{ intros q. rewrite elem_of_app, list_elem_of_singleton.
      split; [by intros [?| ->]|by left]. }
  cbn [digest_files_at]. rewrite !result_digest_files_body, map_app, merge_results_app.
  destruct (merge_results _ ∅) as [m|e] eqn:E; [|done].
  assert (Hin : result (digest_one (digest_files_at (max_height fs files) fs) fs p)
                ∈ map (λ p, result (digest_one (digest_files_at (max_height fs files) fs) fs p))
                    files).
  { apply list_elem_of_fmap. by exists p. }
  pose proof (merge_results_all_Ok _ _ _ E _ Hin) as Hok.
  simpl. destruct (result (digest_one _ fs p)) as [mp|] eqn:Ep; [|done].
  f_equal. apply (consistent_eq fs).
  - apply consistent_union; [by eapply digest_one_at_consistent|].
    by eapply digest_files_at_consistent with (depth := S _); simpl;
      rewrite result_digest_files_body.
  - by eapply digest_files_at_consistent with (depth := S _); simpl;
      rewrite result_digest_files_body.
  - apply set_eq. intros key. rewrite dom_union, elem_of_union.
    split; [|by right]. intros [Hk|Hk]; [|done].
    apply (merge_results_dom _ _ _ E). right. eauto.
Qed.

Lemma digest_files_duplicate_witness :
  result (digest_files demo_fs (["out"; "a.zip"] ++ ["out"]))
  = result (digest_files demo_fs ["out"; "a.zip"]).
Proof.
  apply (digest_files_duplicate demo_fs ["out"; "a.zip"] "out"). by left.
Defined.

(** ** The keys and the values of an archive's digests *)

Lemma entry_keys_cons archive name names :
  entry_keys archive (name :: names)
  = (archive +:+ "#" +:+ name +:+ "#date_time") :: (archive +:+ "#" +:+ name)
      :: entry_keys archive names.
Proof. done. Qed.

Lemma zip_entries_loop_spec archive ar infos digests m :
  result (zip_entries_loop archive ar infos digests) = Ok m →
  dom m = list_to_set (entry_keys archive (map filename infos)) ∪ dom digests
  ∧ (∀ key v, m !! key = Some v →
       digests !! key = Some v ∨ ∃ data, v = SHA256.hexdigest data).
Proof.
  revert digests. induction infos as [|info rest IH]; intros digests;
    cbn [zip_entries_loop map].
  - intros [= <-]. split. set_solver. intros key v Hv. by left.
  - rewrite result_bind. unfold zip_open, call. simpl.
    destruct (getinfo ar (filename info) ≫= member_data) as [f|]; [|done].
    intros Hm. apply IH in Hm as [Hdom Hval]. split.
    + rewrite Hdom, !dom_insert_L.
      generalize (list_to_set (entry_keys archive (map filename rest)) : gset string).
      generalize (archive +:+ "#" +:+ filename info +:+ "#date_time").
      generalize (archive +:+ "#" +:+ filename info). 
      set_solver.
    + intros key v Hv. apply Hval in Hv as [Hv|Hv]; [|by right].
      apply lookup_insert_Some in Hv as [[_ <-]|[_ Hv]].
      { right. by eexists. }
      apply lookup_insert_Some in Hv as [[_ <-]|[_ Hv]].
      { right. by eexists. }
      by left.
Qed.

Lemma digest_archive_spec fs archive m :
  result (digest_archive fs archive) = Ok m →
  ∃ ar, zip_members fs archive = Some ar
    ∧ dom m = list_to_set (archive_keys archive (map filename ar))
    ∧ ∀ key v, m !! key = Some v → ∃ data, v = SHA256.hexdigest data.
Proof.
  unfold digest_archive.
  destruct (_ || _); [|done].
  unfold _digest_zip_archive, ZipFile, call. rewrite result_bind.
  cbn [result snd].
  destruct (zip_members fs archive) as [ar|]; [|done].
  intros Hm. apply zip_entries_loop_spec in Hm as [Hdom Hval].
  exists ar. split; [done|]. split.
  - rewrite Hdom, dom_insert_L, dom_empty_L. unfold archive_keys.
    rewrite list_to_set_cons.
    generalize (list_to_set (entry_keys archive (map filename ar)) : gset string).
    generalize (archive +:+ "#namelist"). set_solver.
  - intros key v Hv. apply Hval in Hv as [Hv|Hv]; [|done].
    apply lookup_insert_Some in Hv as [[_ <-]|[_ Hv]]; [by eexists|].
    by rewrite lookup_empty in Hv.
Qed.

Lemma hex_digit_elem n : SHA256.hex_digit n ∈ SHA256.hex_chars.
Proof.
  unfold SHA256.hex_digit.
  destruct (decide (Z.to_nat n < length SHA256.hex_chars)%nat) as [Hlt|Hge].
  - apply list_elem_of_In, nth_In, Hlt.
  - rewrite nth_overflow by lia. by left.
Qed.

Lemma hexdigest_chars m : Forall (λ c, c ∈ SHA256.hex_chars) (chars (SHA256.hexdigest m)).
Proof.
  unfold SHA256.hexdigest, chars. rewrite list_ascii_of_string_of_list_ascii.
  apply Forall_concat, Forall_fmap, Forall_true. intros w.
  unfold SHA256.hex_word. apply Forall_fmap, Forall_true. intros i. apply hex_digit_elem.
Qed.

(** A hexadecimal digest starts with neither scheme tag. *)
Lemma hexdigest_untagged m : tagged (SHA256.hexdigest m) = false.
Proof.
  pose proof (hexdigest_chars m) as Hhex.
  destruct (SHA256.hexdigest m) as [|c s]; [done|].
  apply Forall_cons_1 in Hhex as [Hc _].
  unfold tagged. cbn [String.prefix].
  destruct (ascii_dec "s" c) as [<-|_]; [|done].
  exfalso. revert Hc. apply (bool_decide_eq_false_1 _). by vm_compute.
Qed.

Lemma tagged_sha256 s : tagged ("sha256=" +:+ s) = true.
Proof. by destruct s. Qed.

Lemma tagged_symlink s : tagged ("symlink=" +:+ s) = true.
Proof. by destruct s. Qed.
(** ** The values: tagged for files, bare for archives *)

Example digest_archive_a_zip :
  digest_archive demo_fs "a.zip"
  = ([EvZipFile "a.zip"; EvZipOpen "a.zip" "x"],
     Ok (list_to_map
       [("a.zip#namelist", "cd65ea2c2ad99e94a85b1b6df72efef9cb2ed0ae933a60c32ce16317f7d7d6aa");
        ("a.zip#x#date_time", "8e25cf449fd44d6a2dec3790cc5ba3681685ed9863d6b6ca760cc7c155b4b09e");
        ("a.zip#x", "6b86b273ff34fce19d6b804eff5a3f5747ada4eaa22f1d49c01e52ddb7875b4b")])).
Proof. vm_compute. reflexivity. Qed.

Example digest_files_demo :
  result (digest_files demo_fs ["out"; "a.zip"; "l.zip"])
  = Ok (list_to_map
      [("out/a.txt", "sha256=559aead08264d5795d3909718cdd05abd49572e84fe55590eef31a88a08fdffd");
       ("out/link", "symlink=missing");
       ("a.zip", "sha256=0ed1c33c5ef91272612279153dd70bdc789a07eda59dee2029581bf09d4892ce");
       ("l.zip", "symlink=a.zip")]).
Proof. vm_compute. reflexivity. Qed.

(** C2, as stated, fails: the value [digest_archive] stores under
    [a.zip#namelist] is a bare hexadecimal digest. *)
Lemma digest_values_tagged_counterexample :
  ¬ (∀ fs archive m key v,
       result (digest_archive fs archive) = Ok m → m !! key = Some v → tagged v = true).
Proof.
  intros Hclaim.
  specialize (Hclaim demo_fs "a.zip" _ "a.zip#namelist"
    "cd65ea2c2ad99e94a85b1b6df72efef9cb2ed0ae933a60c32ce16317f7d7d6aa"
    (f_equal snd digest_archive_a_zip) eq_refl).
  by vm_compute in Hclaim.
Qed.

(** C2, amended: every value of a map produced by [digest_files] starts with
    ["sha256="] or ["symlink="]; every value of a map produced by
    [digest_archive] is a bare hexadecimal SHA-256 digest and starts with
    neither tag. *)
Theorem digest_values_tags (fs : FS) (files : list string) (archive : string)
    (m : gmap string string) (key v : string) :
  (result (digest_files fs files) = Ok m → m !! key = Some v → tagged v = true)
  ∧ (result (digest_archive fs archive) = Ok m → m !! key = Some v →
       (∃ data, v = SHA256.hexdigest data) ∧ tagged v = false).
Proof.
  split.
  - intros Hm Hv. apply digest_files_at_consistent in Hm. apply Hm in Hv.
    unfold leaf_value in Hv. destruct (islink fs key).
    { injection Hv as <-. apply tagged_symlink. }
    destruct (isdir fs key); [done|].
    destruct (read_file fs key); [|done].
    injection Hv as <-. apply tagged_sha256.
  - intros Hm Hv. apply digest_archive_spec in Hm as (ar & _ & _ & Hval).
    destruct (Hval key v Hv) as [data ->]. split; [by exists data|].
    apply hexdigest_untagged.
Qed.

Lemma digest_values_tags_witness :
  tagged "symlink=a.zip" = true
  ∧ tagged "8e25cf449fd44d6a2dec3790cc5ba3681685ed9863d6b6ca760cc7c155b4b09e" = false.
Proof.
  split.
  - apply (proj1 (digest_values_tags demo_fs ["out"; "a.zip"; "l.zip"] "a.zip" _
                    "l.zip" "symlink=a.zip") digest_files_demo eq_refl).
  - apply (proj2 (digest_values_tags demo_fs [] "a.zip" _ "a.zip#x#date_time"
                    "8e25cf449fd44d6a2dec3790cc5ba3681685ed9863d6b6ca760cc7c155b4b09e")
             (f_equal snd digest_archive_a_zip) eq_refl).
Defined.

(** ** The number of keys of an archive's digests *)

Lemma chars_inj s1 s2 : chars s1 = chars s2 → s1 = s2.
Proof.
  intros Heq. rewrite <- (string_of_list_ascii_of_string s1),
    <- (string_of_list_ascii_of_string s2). unfold chars in Heq. by rewrite Heq.
Qed.

Lemma append_inj_r s1 s2 t : s1 +:+ t = s2 +:+ t → s1 = s2.
Proof.
  intros Heq. apply chars_inj. apply (f_equal chars) in Heq.
  rewrite !chars_app in Heq. by apply app_inv_tail in Heq.
Qed.

Lemma entry_key_inj archive a b : archive +:+ "#" +:+ a = archive +:+ "#" +:+ b → a = b.
Proof. intros Heq. apply (inj _) in Heq. by injection Heq. Qed.

Lemma namelist_not_date_time name : "namelist" ≠ name +:+ "#date_time".
Proof.
  intros Heq. apply (f_equal (λ s, length (chars s))) in Heq.
  rewrite chars_app, length_app in Heq. simpl in Heq. lia.
Qed.

Lemma date_time_not_self name : name +:+ "#date_time" ≠ name.
Proof.
  intros Heq. apply (f_equal (λ s, length (chars s))) in Heq.
  rewrite chars_app, length_app in Heq. simpl in Heq. lia.
Qed.

Lemma elem_of_entry_keys archive names key :
  key ∈ entry_keys archive names ↔
  ∃ name, name ∈ names
    ∧ (key = archive +:+ "#" +:+ name +:+ "#date_time" ∨ key = archive +:+ "#" +:+ name).
Proof.
  unfold entry_keys. rewrite list_elem_of_In, in_flat_map. split.
  - intros (name & Hin & Hk). exists name. rewrite list_elem_of_In. split; [done|].
    destruct Hk as [<-|[<-|[]]]; auto.
  - intros (name & Hin & Hk). exists name. rewrite <- list_elem_of_In. split; [done|].
    destruct Hk as [->| ->]; simpl; auto.
Qed.

(** When no two members write the same key, the keys are all different. *)
Lemma archive_keys_NoDup archive names :
  NoDup names → "namelist" ∉ names →
  (∀ n n', n ∈ names → n' ∈ names → n' ≠ n +:+ "#date_time") →
  NoDup (archive_keys archive names).
Proof.
  intros Hnd Hnl Hdt. unfold archive_keys. apply NoDup_cons. split.
  - rewrite elem_of_entry_keys. intros (name & Hin & [Hk|Hk]).
    + apply (inj _) in Hk. injection Hk as Hk. by apply namelist_not_date_time in Hk.
    + apply (inj _) in Hk. injection Hk as Hk. change ("namelist" = name) in Hk. subst. by apply Hnl.
  - clear Hnl. induction Hnd as [|name names Hname Hnd IH]; [constructor|].
    rewrite entry_keys_cons. apply NoDup_cons. split; [|apply NoDup_cons; split].
    + rewrite elem_of_cons, elem_of_entry_keys.
      intros [Hk|(n' & Hin & [Hk|Hk])]; apply entry_key_inj in Hk.
      * by apply date_time_not_self in Hk.
      * apply append_inj_r in Hk. by subst.
      * symmetry in Hk. revert Hk. apply Hdt; [by left|by right].
    + rewrite elem_of_entry_keys.
      intros (n' & Hin & [Hk|Hk]); apply entry_key_inj in Hk.
      * revert Hk. apply Hdt; [by right|by left].
      * by subst.
    + apply IH. intros n n' Hn Hn'. apply Hdt; by right.
Qed.

Lemma size_list_to_set_le (l : list string) :
  (size (list_to_set l : gset string) ≤ length l)%nat.
Proof.
  induction l as [|x l IH].
  { by rewrite list_to_set_nil, size_empty. }
  rewrite list_to_set_cons. cbn [length].
  destruct (decide (x ∈ (list_to_set l : gset string))) as [Hin|Hnin].
  - rewrite (subseteq_union_1_L {[x]}); [lia|]. by apply singleton_subseteq_l.
  - rewrite size_union, size_singleton; [lia|]. by apply disjoint_singleton_l.
Qed.

Lemma entry_keys_length archive names :
  length (entry_keys archive names) = (2 * length names)%nat.
Proof. induction names as [|n names IH]; [done|]. rewrite entry_keys_cons. simpl. lia. Qed.

Example digest_archive_n_zip :
  digest_archive demo_fs "n.zip"
  = ([EvZipFile "n.zip"; EvZipOpen "n.zip" "namelist"],
     Ok (list_to_map
       [("n.zip#namelist#date_time", "8e25cf449fd44d6a2dec3790cc5ba3681685ed9863d6b6ca760cc7c155b4b09e");
        ("n.zip#namelist", "6b86b273ff34fce19d6b804eff5a3f5747ada4eaa22f1d49c01e52ddb7875b4b")])).
Proof. vm_compute. reflexivity. Qed.

(** C5, as stated, fails: for the archive whose one member is called
    [namelist] the digests have 2 keys, not 3. *)
Lemma digest_archive_key_count_counterexample :
  ¬ (∀ fs archive ar m,
       zip_members fs archive = Some ar → result (digest_archive fs archive) = Ok m →
       size m = (1 + 2 * length ar)%nat).
Proof.
  intros Hclaim.
  specialize (Hclaim demo_fs "n.zip" [member "namelist" "1"] _ eq_refl
                (f_equal snd digest_archive_n_zip)).
  by vm_compute in Hclaim.
Qed.

(** C5, amended: the digests of a readable archive with [n] members have at
    most [1 + 2 * n] keys, and exactly that many when the member names are
    pairwise different, none is [namelist], and none is another one followed
    by [#date_time]. *)
Theorem digest_archive_key_count (fs : FS) (archive : string) (m : gmap string string) :
  result (digest_archive fs archive) = Ok m →
  ∃ ar, zip_members fs archive = Some ar
    ∧ (size m ≤ 1 + 2 * length ar)%nat
    ∧ (NoDup (map filename ar) → "namelist" ∉ map filename ar →
       (∀ n n', n ∈ map filename ar → n' ∈ map filename ar → n' ≠ n +:+ "#date_time") →
       size m = (1 + 2 * length ar)%nat).
Proof.
  intros Hm. apply digest_archive_spec in Hm as (ar & Har & Hdom & _).
  exists ar. split; [done|].
  assert (Hlen : length (archive_keys archive (map filename ar)) = (1 + 2 * length ar)%nat).
  { unfold archive_keys. simpl. by rewrite entry_keys_length, length_map. }
  rewrite <- size_dom, Hdom, <- Hlen. split.
  - apply size_list_to_set_le.
  - intros Hnd Hnl Hdt. apply size_list_to_set. by apply archive_keys_NoDup.
Qed.

Lemma digest_archive_key_count_witness :
  size (list_to_map
       [("a.zip#namelist", "cd65ea2c2ad99e94a85b1b6df72efef9cb2ed0ae933a60c32ce16317f7d7d6aa");
        ("a.zip#x#date_time", "8e25cf449fd44d6a2dec3790cc5ba3681685ed9863d6b6ca760cc7c155b4b09e");
        ("a.zip#x", "6b86b273ff34fce19d6b804eff5a3f5747ada4eaa22f1d49c01e52ddb7875b4b")]
        : gmap string string)
  = 3%nat.
Proof.
  destruct (digest_archive_key_count demo_fs "a.zip" _ (f_equal snd digest_archive_a_zip))
    as (ar & Har & _ & Heq).
  change (Some [member "x" "1"] = Some ar) in Har. injection Har as <-.
  apply Heq.
  - apply NoDup_singleton.
  - intros Hin. apply list_elem_of_singleton in Hin. discriminate.
  - intros n n' Hn Hn'. apply list_elem_of_singleton in Hn, Hn'. subst. discriminate.
Defined.

(** ** The snapshot *)

Lemma for_each_spec {A B} (f : A → io B) (l : list A) (ys : list B) :
  result (for_each f l) = Ok ys → Forall2 (λ x y, result (f x) = Ok y) l ys.
Proof.
  revert ys. induction l as [|x l IH]; intros ys; cbn [for_each].
  - intros [= <-]. constructor.
  - rewrite result_bind. destruct (result (f x)) as [y|] eqn:Ey; [|done].
    rewrite result_bind. destruct (result (for_each f l)) as [ys'|]; [|done].
    intros [= <-]. constructor; [done|]. by apply IH.
Qed.

Lemma chain_get_head m ms key v :
  m !! key = Some v → chain_get (m :: ms) key = Some v.
Proof. intros Hv. simpl. by rewrite Hv. Qed.

Lemma digest_outputs_spec {World : Type} (view : World → FS) files archives w cm :
  result (digest_outputs view files archives w) = Ok cm →
  ∃ base entries,
    result (digest_files (view w) (files ++ archives)) = Ok base
    ∧ Forall2 (λ a m, result (digest_archive (view w) a) = Ok m) archives entries
    ∧ cm = {| maps := base :: entries |}.
Proof.
  unfold digest_outputs. rewrite result_bind.
  destruct (result (digest_files _ _)) as [base|]; [|done].
  rewrite result_bind.
  destruct (result (for_each _ _)) as [entries|] eqn:Ee; [|done].
  intros [= <-]. exists base, entries. split; [done|]. split; [|done].
  by apply for_each_spec.
Qed.

(** A path of the list that is a link, or is not a directory, is a key of
    the result, with the value of that link or file. *)
Lemma digest_files_leaf fs files m p :
  result (digest_files fs files) = Ok m → p ∈ files →
  islink fs p = true ∨ isdir fs p = false →
  ∃ v, m !! p = Some v ∧ leaf_value fs p = Some v.
Proof.
  intros Hm Hp Hleaf.
  pose proof (digest_files_at_consistent _ _ _ _ Hm) as Hcons.
  unfold digest_files in Hm. cbn [digest_files_at] in Hm.
  rewrite result_digest_files_body in Hm.
  set (one := λ p, result (digest_one (digest_files_at (max_height fs files) fs) fs p)) in *.
  assert (Hin : one p ∈ map one files) by (apply list_elem_of_fmap; by exists p).
  pose proof (merge_results_all_Ok _ _ _ Hm _ Hin) as Hok.
  destruct (one p) as [mp|] eqn:Ep; [|done].
  assert (Hdom : p ∈ dom mp).
  { revert Ep. unfold one, digest_one, os_path_islink, os_path_isdir, os_readlink.
    rewrite !bind_call_some. cbn [result snd].
    destruct (islink fs p).
    { intros [= <-]. rewrite dom_singleton_L. by apply elem_of_singleton. }
    destruct Hleaf as [?|Hd]; [done|]. rewrite Hd.
    unfold _digest_file, open_rb, call. destruct (read_file fs p); [|done].
    intros [= <-]. rewrite dom_singleton_L. by apply elem_of_singleton. }
  assert (Hpm : p ∈ dom m).
  { apply (merge_results_dom _ _ _ Hm). right. eauto. }
  apply elem_of_dom in Hpm as [v Hv]. exists v. split; [done|]. by apply Hcons.
Qed.

Lemma elem_of_chain_keys (ms : list (gmap string string)) m key :
  m ∈ ms → key ∈ dom m → key ∈ keys {| maps := ms |}.
Proof.
  intros Hm Hk. simpl. apply elem_of_union_list. exists (dom m).
  split; [|done]. apply list_elem_of_fmap. by exists m.
Qed.

Example digest_outputs_l_zip :
  result (digest_outputs (λ _ : unit, demo_fs) [] ["l.zip"] ())
  = Ok {| maps :=
      [ list_to_map [("l.zip", "symlink=a.zip")];
        list_to_map
          [("l.zip#namelist", "cd65ea2c2ad99e94a85b1b6df72efef9cb2ed0ae933a60c32ce16317f7d7d6aa");
           ("l.zip#x#date_time", "8e25cf449fd44d6a2dec3790cc5ba3681685ed9863d6b6ca760cc7c155b4b09e");
           ("l.zip#x", "6b86b273ff34fce19d6b804eff5a3f5747ada4eaa22f1d49c01e52ddb7875b4b")] ] |}.
Proof. vm_compute. reflexivity. Qed.

(** C4, as stated, fails: for the declared archive [l.zip], a symbolic link
    to an archive, the snapshot holds the link's target under the key
    [l.zip], not a content hash of the archive. *)
Lemma snapshot_archive_counterexample :
  ¬ (∀ (fs : FS) (output_files output_archives : list string) (cm : ChainMap) (a : string),
       fs_wf fs →
       result (digest_outputs (λ _ : unit, fs) output_files output_archives ()) = Ok cm →
       a ∈ output_archives →
       ∃ data, read_file fs a = Some data
         ∧ get cm a = Some ("sha256=" +:+ hash_stream data)).
Proof.
  intros Hclaim.
  destruct (Hclaim demo_fs [] ["l.zip"] _ "l.zip" demo_fs_wf digest_outputs_l_zip)
    as (data & _ & Hget); [by left|].
  change (Some "symlink=a.zip" = Some ("sha256=" +:+ hash_stream data)) in Hget.
  discriminate.
Qed.

(** C4, amended: in a snapshot, every value of the File Digester's map is
    kept as it is (a lookup takes that map first); for every declared archive
    [a] the key [a] is present, holding the content hash ["sha256=..."] of
    the archive file when [a] is not a symbolic link and ["symlink=" + target]
    when it is; and the keys [a#namelist], [a#<entry>#date_time] and
    [a#<entry>] of every entry of [a] are present as well. *)
Theorem snapshot_archive {World : Type} (view : World → FS)
    (output_files output_archives : list string) (w : World) (cm : ChainMap) (a : string) :
  fs_wf (view w) →
  result (digest_outputs view output_files output_archives w) = Ok cm →
  a ∈ output_archives →
  (∃ base, result (digest_files (view w) (output_files ++ output_archives)) = Ok base
      ∧ (∀ key v, base !! key = Some v → get cm key = Some v)
      ∧ get cm a = base !! a)
  ∧ a ∈ keys cm
  ∧ (if islink (view w) a
     then get cm a = Some ("symlink=" +:+ readlink (view w) a)
     else ∃ data, read_file (view w) a = Some data
            ∧ get cm a = Some ("sha256=" +:+ hash_stream data))
  ∧ (∃ ar, zip_members (view w) a = Some ar
      ∧ a +:+ "#namelist" ∈ keys cm
      ∧ ∀ info, info ∈ ar →
          a +:+ "#" +:+ filename info +:+ "#date_time" ∈ keys cm
          ∧ a +:+ "#" +:+ filename info ∈ keys cm).
Proof.
  intros Hwf Hcm Ha.
  apply digest_outputs_spec in Hcm as (base & entries & Hbase & Hent & ->).
  apply list_elem_of_lookup in Ha as Hai. destruct Hai as [i Hi].
  destruct (Forall2_lookup_l _ _ _ _ _ Hent Hi) as (ma & Hma & Hda).
  apply digest_archive_spec in Hda as Hspec. destruct Hspec as (ar & Har & Hdom & _).
  assert (Hnd : isdir (view w) a = false).
  { destruct (isdir (view w) a) eqn:Ed; [|done].
    apply (wf_dir_not_file _ Hwf) in Ed.
    destruct (wf_zip_is_file _ Hwf _ _ Har) as [data Hdata]. congruence. }
  destruct (digest_files_leaf _ _ _ a Hbase) as (v & Hv & Hleaf);
    [apply elem_of_app; by right|by right|].
  assert (Hget : get {| maps := base :: entries |} a = Some v).
  { by apply chain_get_head. }
  assert (Hin : ma ∈ base :: entries).
  { right. by eapply list_elem_of_lookup_2. }
  split; [|split; [|split]].
  - exists base. split; [done|]. split.
    + intros key v' Hv'. by apply chain_get_head.
    + by rewrite Hget, Hv.
  - apply chain_get_keys. by rewrite Hget.
  - rewrite Hget. unfold leaf_value in Hleaf. rewrite Hnd in Hleaf.
    destruct (islink (view w) a); [done|].
    destruct (read_file (view w) a) as [data|]; [|done].
    exists data. split; [done|]. by rewrite <- Hleaf.
  - exists ar. split; [done|]. split.
    + apply (elem_of_chain_keys _ ma); [done|].
      rewrite Hdom. apply elem_of_list_to_set. by left.
    + intros info Hinfo.
      assert (Hname : filename info ∈ map filename ar).
      { apply list_elem_of_fmap. by exists info. }
      split; (apply (elem_of_chain_keys _ ma); [done|]);
        rewrite Hdom; apply elem_of_list_to_set; right;
        apply elem_of_entry_keys; exists (filename info); auto.
Qed.

Example digest_outputs_a_zip :
  result (digest_outputs (λ _ : unit, demo_fs) ["out"] ["a.zip"] ())
  = Ok {| maps :=
      [ list_to_map
          [("out/a.txt", "sha256=559aead08264d5795d3909718cdd05abd49572e84fe55590eef31a88a08fdffd");
           ("out/link", "symlink=missing");
           ("a.zip", "sha256=0ed1c33c5ef91272612279153dd70bdc789a07eda59dee2029581bf09d4892ce")];
        list_to_map
          [("a.zip#namelist", "cd65ea2c2ad99e94a85b1b6df72efef9cb2ed0ae933a60c32ce16317f7d7d6aa");
           ("a.zip#x#date_time", "8e25cf449fd44d6a2dec3790cc5ba3681685ed9863d6b6ca760cc7c155b4b09e");
           ("a.zip#x", "6b86b273ff34fce19d6b804eff5a3f5747ada4eaa22f1d49c01e52ddb7875b4b")] ] |}.
Proof. vm_compute. reflexivity. Qed.

Lemma snapshot_archive_witness :
  ∃ cm, result (digest_outputs (λ _ : unit, demo_fs) ["out"] ["a.zip"] ()) = Ok cm
    ∧ get cm "a.zip" = Some ("sha256=" +:+ hash_stream (bytes_of_string "PK-a"))
    ∧ "a.zip#x#date_time" ∈ keys cm
    ∧ "a.zip#x" ∈ keys cm.
Proof.
  eexists. split; [exact digest_outputs_a_zip|].
  destruct (snapshot_archive (λ _ : unit, demo_fs) ["out"] ["a.zip"] () _ "a.zip"
              demo_fs_wf digest_outputs_a_zip) as (_ & _ & Hv & (ar & Har & _ & Hent));
    [by left|].
  change (Some [member "x" "1"] = Some ar) in Har. injection Har as <-.
  split; [|apply (Hent (member "x" "1")); by left].
  replace (islink demo_fs "a.zip") with false in Hv by reflexivity.
  destruct Hv as (data & Hdata & Hget).
  change (Some (bytes_of_string "PK-a") = Some data) in Hdata. injection Hdata as <-.
  exact Hget.
Defined.

(** ** The read loop *)

Lemma BUF_SIZE_pos : (0 < BUF_SIZE)%nat.
Proof. unfold BUF_SIZE. lia. Qed.

Lemma take_nil_inv {A} (n : nat) (l : list A) : (0 < n)%nat → take n l = [] → l = [].
Proof. intros Hn Ht. destruct l as [|x l]; [done|]. destruct n; [lia|discriminate]. Qed.

(** Reading by chunks feeds the hash the whole content, in order. *)
Lemma read_loop_all fuel (m : SHA256.t) (f : list Byte.byte) :
  (length f < fuel)%nat → read_loop fuel m f = m ++ f.
Proof.
  revert m f. induction fuel as [|k IH]; intros m f Hlen; [lia|].
  cbn [read_loop]. pose proof BUF_SIZE_pos as Hpos.
  destruct (take BUF_SIZE f) as [|b buf] eqn:Et.
  - apply take_nil_inv in Et as ->; [|exact Hpos]. symmetry. apply app_nil_r.
  - rewrite IH.
    + unfold SHA256.update. rewrite <- Et, <- app_assoc. f_equal. apply take_drop.
    + rewrite length_drop. destruct f as [|b' f].
      * rewrite take_nil in Et. discriminate.
      * cbn [length] in *. lia.
Qed.

Lemma hash_stream_whole (f : list Byte.byte) : hash_stream f = SHA256.hexdigest f.
Proof. unfold hash_stream. rewrite read_loop_all; [reflexivity|lia]. Qed.

(** ** Termination *)

(** On a well-formed file system the depth [digest_files] starts with is
    enough: the recursion bound is never hit. *)
Lemma digest_files_at_terminates fs :
  fs_wf fs → ∀ depth files, (max_height fs files < depth)%nat →
  result (digest_files_at depth fs files) ≠ Raise RecursionError.
Proof.
  intros Hwf. induction depth as [|k IH]; intros files Hlt; [lia|].
  cbn [digest_files_at]. rewrite result_digest_files_body. intros Hr.
  apply merge_results_Raise, list_elem_of_fmap in Hr as (p & Hp & Hin).
  pose proof (max_height_elem fs files p Hin) as Hle.
  revert Hp. unfold digest_one, os_path_islink, os_path_isdir, os_readlink.
  rewrite !bind_call_some. cbn [result snd].
  destruct (islink fs p) eqn:El; [done|].
  destruct (isdir fs p) eqn:Ed.
  - unfold os_listdir. destruct (listdir fs p) as [names|] eqn:Els; [|done].
    rewrite bind_call_some. cbn [result snd]. intros Hp. symmetry in Hp. revert Hp.
    apply IH. pose proof (wf_height fs Hwf p names El Ed Els). lia.
  - unfold _digest_file, open_rb, call. by destruct (read_file fs p).
Qed.

Lemma digest_files_terminates fs files :
  fs_wf fs → result (digest_files fs files) ≠ Raise RecursionError.
Proof. intros Hwf. apply digest_files_at_terminates; [done|lia]. Qed.

(** * Further properties *)

(** ** Reading and hashing a file *)

(** [_digest_file] opens the file once and returns the SHA-256 digest of its
    whole content, whatever its size against the buffer; when the file does
    not open it raises and returns nothing. *)
Theorem digest_file_whole (fs : FS) (file : string) :
  _digest_file fs file
  = ([EvOpen file],
     match read_file fs file with
     | Some data => Ok (SHA256.hexdigest data)
     | None => Raise (OSError file)
     end).
Proof.
  unfold _digest_file, open_rb, call, bind.
  destruct (read_file fs file) as [data|]; [|done].
  simpl. by rewrite hash_stream_whole.
Qed.

(** The rounds of the hash keep eight words. *)
Lemma round_length st kw : length st = 8%nat → length (SHA256.round st kw) = 8%nat.
Proof.
  intros Hlen. unfold SHA256.round.
  do 9 (destruct st as [|? st]; try done).
Qed.

Lemma fold_round_length kws st :
  length st = 8%nat → length (fold_left SHA256.round kws st) = 8%nat.
Proof.
  revert st. induction kws as [|kw kws IH]; intros st Hlen; [done|].
  cbn [fold_left]. apply IH. by apply round_length.
Qed.

Lemma compress_length hs block : length hs = 8%nat → length (SHA256.compress hs block) = 8%nat.
Proof.
  intros Hlen. unfold SHA256.compress.
  rewrite length_map, length_combine, fold_round_length; [lia|done].
Qed.

Lemma digest_words_length msg : length (SHA256.digest_words msg) = 8%nat.
Proof.
  unfold SHA256.digest_words.
  generalize (SHA256.chunks (length (SHA256.pad msg)) 64 (SHA256.pad msg)).
  assert (Hlen : length SHA256.H0 = 8%nat) by reflexivity.
  revert Hlen. generalize SHA256.H0.
  intros hs Hlen blocks. revert hs Hlen.
  induction blocks as [|b blocks IH]; intros hs Hlen; [done|].
  cbn [fold_left]. apply IH. by apply compress_length.
Qed.

Lemma concat_hex_length ws :
  length (concat (map SHA256.hex_word ws)) = (8 * length ws)%nat.
Proof.
  induction ws as [|w ws IH]; [done|].
  cbn [map concat length]. rewrite length_app, IH.
  unfold SHA256.hex_word. rewrite length_map, length_rev, length_seq. lia.
Qed.

(** Every digest is a string of 64 characters among [0-9a-f]. *)
Lemma hexdigest_format (m : SHA256.t) :
  length (chars (SHA256.hexdigest m)) = 64%nat
  ∧ Forall (λ c, c ∈ chars "0123456789abcdef") (chars (SHA256.hexdigest m)).
Proof.
  split; [|apply hexdigest_chars].
  unfold SHA256.hexdigest, chars. rewrite list_ascii_of_string_of_list_ascii.
  by rewrite concat_hex_length, digest_words_length.
Qed.

(** ** What [digest_files] records *)

Lemma digest_files_value_inv fs files m key v :
  result (digest_files fs files) = Ok m → m !! key = Some v →
  (islink fs key = true ∧ v = "symlink=" +:+ readlink fs key)
  ∨ (islink fs key = false ∧ isdir fs key = false
     ∧ ∃ data, read_file fs key = Some data ∧ v = "sha256=" +:+ SHA256.hexdigest data).
Proof.
  intros Hm Hv. apply digest_files_at_consistent in Hm. apply Hm in Hv.
  unfold leaf_value in Hv. destruct (islink fs key).
  { left. split; [done|]. by injection Hv. }
  right. destruct (isdir fs key); [done|].
  destruct (read_file fs key) as [data|]; [|done].
  split; [done|]. split; [done|]. exists data. split; [done|].
  injection Hv as <-. by rewrite hash_stream_whole.
Qed.

(** A key of the result is a link or a file that opens, never a directory;
    its value is ["symlink="] and the link's target, or ["sha256="] and the
    digest of the file's whole content. *)
Theorem digest_files_values (fs : FS) (files : list string) (m : gmap string string)
    (key v : string) :
  result (digest_files fs files) = Ok m → m !! key = Some v →
  (islink fs key = true ∧ v = "symlink=" +:+ readlink fs key)
  ∨ (islink fs key = false ∧ isdir fs key = false
     ∧ ∃ data, read_file fs key = Some data ∧ v = "sha256=" +:+ SHA256.hexdigest data).
Proof. apply digest_files_value_inv. Qed.

Lemma digest_files_values_witness :
  islink demo_fs "out/a.txt" = false ∧ isdir demo_fs "out/a.txt" = false
  ∧ ∃ data, read_file demo_fs "out/a.txt" = Some data
      ∧ "sha256=559aead08264d5795d3909718cdd05abd49572e84fe55590eef31a88a08fdffd"
        = "sha256=" +:+ SHA256.hexdigest data.
Proof.
  destruct (digest_files_values demo_fs ["out"; "a.zip"; "l.zip"] _ "out/a.txt"
              "sha256=559aead08264d5795d3909718cdd05abd49572e84fe55590eef31a88a08fdffd"
              digest_files_demo eq_refl) as [[Hl _]|H]; [discriminate Hl|exact H].
Defined.

(** Files of equal content get equal values, on any paths and file systems. *)
Theorem digest_files_same_content (fs1 fs2 : FS) (files1 files2 : list string)
    (m1 m2 : gmap string string) (key1 key2 v1 v2 : string) :
  result (digest_files fs1 files1) = Ok m1 → result (digest_files fs2 files2) = Ok m2 →
  m1 !! key1 = Some v1 → m2 !! key2 = Some v2 →
  islink fs1 key1 = false → islink fs2 key2 = false →
  read_file fs1 key1 = read_file fs2 key2 →
  v1 = v2.
Proof.
  intros Hm1 Hm2 Hv1 Hv2 Hl1 Hl2 Hread.
  destruct (digest_files_value_inv _ _ _ _ _ Hm1 Hv1) as [[? _]|(_ & _ & d1 & Hd1 & ->)];
    [congruence|].
  destruct (digest_files_value_inv _ _ _ _ _ Hm2 Hv2) as [[? _]|(_ & _ & d2 & Hd2 & ->)];
    [congruence|].
  congruence.
Qed.

Example digest_files_out_txt :
  result (digest_files (out_fs "A") ["out.txt"])
  = Ok (list_to_map
      [("out.txt", "sha256=559aead08264d5795d3909718cdd05abd49572e84fe55590eef31a88a08fdffd")]).
Proof. vm_compute. reflexivity. Qed.

(** The file [out/a.txt] of [demo_fs] and the file [out.txt] of [out_fs "A"]
    both hold ["A"]. *)
Lemma digest_files_same_content_witness :
  ∃ m1 m2 v1 v2,
    result (digest_files demo_fs ["out"; "a.zip"; "l.zip"]) = Ok m1
    ∧ result (digest_files (out_fs "A") ["out.txt"]) = Ok m2
    ∧ m1 !! "out/a.txt" = Some v1 ∧ m2 !! "out.txt" = Some v2
    ∧ v1 = v2.
Proof.
  eexists _, _, _, _.
  split; [exact digest_files_demo|]. split; [exact digest_files_out_txt|].
  split; [reflexivity|]. split; [reflexivity|].
  apply (digest_files_same_content demo_fs (out_fs "A") ["out"; "a.zip"; "l.zip"]
           ["out.txt"] _ _ "out/a.txt" "out.txt" _ _
           digest_files_demo digest_files_out_txt eq_refl eq_refl eq_refl eq_refl eq_refl).
Defined.

(** ** How [digest_files] composes *)

Lemma merge_results_acc rs acc :
  merge_results rs acc
  = match merge_results rs ∅ with
    | Ok m => Ok (m ∪ acc)
    | Raise e => Raise e
    end.
Proof.
  revert acc. induction rs as [|[m1|e] rs IH]; intros acc; cbn [merge_results].
  - by rewrite (left_id_L ∅ (∪)).
  - rewrite (IH (m1 ∪ acc)), (IH (m1 ∪ ∅)).
    destruct (merge_results rs ∅) as [m|]; [|done].
    by rewrite (right_id_L ∅ (∪)), (assoc_L (∪)).
  - done.
Qed.

Lemma digest_one_enough fs p n n' :
  fs_wf fs → (height fs p ≤ n)%nat → (height fs p ≤ n')%nat →
  digest_one (digest_files_at n fs) fs p = digest_one (digest_files_at n' fs) fs p.
Proof.
  intros Hwf Hn Hn'.
  unfold digest_one, os_path_islink, os_path_isdir. rewrite !bind_call_some.
  destruct (islink fs p) eqn:El; [done|]. rewrite ?bind_call_some.
  destruct (isdir fs p) eqn:Ed; [|done].
  unfold os_listdir, call. destruct (listdir fs p) as [names|] eqn:Els; [|done].
  pose proof (wf_height fs Hwf p names El Ed Els) as Hlt.
  cbn [bind]. rewrite (digest_files_at_enough fs Hwf n n'); [done|lia|lia].
Qed.

(** The digest of a list is the digests of its paths, merged in order. *)
Lemma result_digest_files_split fs files :
  fs_wf fs →
  result (digest_files fs files)
  = merge_results (map (λ p, result (digest_files fs [p])) files) ∅.
Proof.
  intros Hwf. unfold digest_files at 1. cbn [digest_files_at].
  rewrite result_digest_files_body. f_equal.
  apply map_ext_in. intros p Hp%list_elem_of_In.
  unfold digest_files. cbn [digest_files_at].
  rewrite result_digest_files_body. cbn [map merge_results].
  rewrite (digest_one_enough fs p (max_height fs files) (max_height fs [p]) Hwf).
  - destruct (result (digest_one _ fs p)); [|done]. by rewrite (right_id_L ∅ (∪)).
  - by apply max_height_elem.
  - apply max_height_elem. by left.
Qed.

(** [digest_files(l1 + l2)] is [{**digest_files(l1), **digest_files(l2)}],
    and raises what the first of the two that fails raises. *)
Theorem digest_files_app (fs : FS) (files1 files2 : list string) :
  fs_wf fs →
  result (digest_files fs (files1 ++ files2))
  = match result (digest_files fs files1) with
    | Ok m1 =>
        match result (digest_files fs files2) with
        | Ok m2 => Ok (m2 ∪ m1)
        | Raise e => Raise e
        end
    | Raise e => Raise e
    end.
Proof.
  intros Hwf. rewrite !result_digest_files_split by done.
  rewrite map_app, merge_results_app.
  destruct (merge_results _ ∅) as [m1|]; [|done].
  apply merge_results_acc.
Qed.

Lemma digest_files_app_witness :
  result (digest_files demo_fs (["out"] ++ ["a.zip"]))
  = match result (digest_files demo_fs ["out"]) with
    | Ok m1 =>
        match result (digest_files demo_fs ["a.zip"]) with
        | Ok m2 => Ok (m2 ∪ m1)
        | Raise e => Raise e
        end
    | Raise e => Raise e
    end.
Proof. apply (digest_files_app demo_fs ["out"] ["a.zip"] demo_fs_wf). Defined.


(** ** The system calls of [digest_files] *)

Lemma trace_bind {A B} (m : io A) (k : A → io B) :
  trace (bind m k)
  = trace m ++ match result m with Ok a => trace (k a) | Raise _ => [] end.
Proof.
  destruct m as [t [a|e]]; simpl; [|by rewrite app_nil_r]. by destruct (k a).
Qed.

Lemma trace_digest_one self fs p :
  (∀ files, Forall (respects_links fs) (trace (self files))) →
  Forall (respects_links fs) (trace (digest_one self fs p)).
Proof.
  intros Hself. unfold digest_one, os_path_islink, os_path_isdir, os_readlink.
  rewrite !bind_call_some. cbn [trace fst result snd ret].
  destruct (islink fs p) eqn:El.
  { by repeat constructor. }
  apply Forall_cons. split; [done|]. apply Forall_cons. split; [done|].
  destruct (isdir fs p) eqn:Ed.
  - unfold os_listdir, call. destruct (listdir fs p) as [names|]; cbn [bind].
    + destruct (self _) as [t r] eqn:Es. cbn [fst].
      apply Forall_cons. split; [done|].
      specialize (Hself (map (os_path_join p) names)). by rewrite Es in Hself.
    + by repeat constructor.
  - unfold _digest_file, open_rb, call.
    destruct (read_file fs p); by repeat constructor.
Qed.

Lemma trace_digest_files_body self fs files acc :
  (∀ files, Forall (respects_links fs) (trace (self files))) →
  Forall (respects_links fs) (trace (digest_files_body self fs files acc)).
Proof.
  intros Hself. revert acc. induction files as [|p files IH]; intros acc.
  { constructor. }
  rewrite digest_files_body_cons, trace_bind. apply Forall_app. split.
  - by apply trace_digest_one.
  - destruct (result (digest_one self fs p)); [apply IH|constructor].
Qed.

Lemma trace_digest_files_at fs depth files :
  Forall (respects_links fs) (trace (digest_files_at depth fs files)).
Proof.
  revert files. induction depth as [|k IH]; intros files; [constructor|].
  cbn [digest_files_at]. by apply trace_digest_files_body.
Qed.

(** [digest_files] never goes through a link: what it opens is neither a
    link nor a directory, what it lists is a directory that is not a link,
    and [readlink] is its only call on a link besides the test itself. *)
Theorem digest_files_never_follows_links (fs : FS) (files : list string) :
  (∀ p, EvOpen p ∈ trace (digest_files fs files) →
        islink fs p = false ∧ isdir fs p = false)
  ∧ (∀ p, EvListdir p ∈ trace (digest_files fs files) →
        islink fs p = false ∧ isdir fs p = true)
  ∧ (∀ p, EvIsdir p ∈ trace (digest_files fs files) → islink fs p = false)
  ∧ (∀ p, EvReadlink p ∈ trace (digest_files fs files) → islink fs p = true).
Proof.
  pose proof (trace_digest_files_at fs (S (max_height fs files)) files) as Hall.
  rewrite Forall_forall in Hall.
  split; [|split; [|split]]; intros p Hp; apply (Hall _ Hp).
Qed.

Lemma digest_files_never_follows_links_witness :
  islink demo_fs "out/a.txt" = false ∧ isdir demo_fs "out/a.txt" = false.
Proof.
  apply (proj1 (digest_files_never_follows_links demo_fs ["out"; "l.zip"]) "out/a.txt").
  apply list_elem_of_In. vm_compute. do 5 right. left. reflexivity.
Defined.

(** ** Failures and values of [digest_archive] *)




(** Every value of an archive's digests is 64 characters among [0-9a-f]. *)
Theorem digest_archive_values_format (fs : FS) (archive : string)
    (m : gmap string string) (key v : string) :
  result (digest_archive fs archive) = Ok m → m !! key = Some v →
  length (chars v) = 64%nat ∧ Forall (λ c, c ∈ chars "0123456789abcdef") (chars v).
Proof.
  intros Hm Hv. apply digest_archive_spec in Hm as (ar & _ & _ & Hval).
  destruct (Hval key v Hv) as [data ->]. apply hexdigest_format.
Qed.

Lemma digest_archive_values_format_witness :
  length (chars "6b86b273ff34fce19d6b804eff5a3f5747ada4eaa22f1d49c01e52ddb7875b4b") = 64%nat
  ∧ Forall (λ c, c ∈ chars "0123456789abcdef")
      (chars "6b86b273ff34fce19d6b804eff5a3f5747ada4eaa22f1d49c01e52ddb7875b4b").
Proof.
  apply (digest_archive_values_format demo_fs "a.zip" _ "a.zip#x" _
           (f_equal snd digest_archive_a_zip) eq_refl).
Defined.

Lemma filter_name_nil (ar : list ZipInfo) name :
  name ∉ map filename ar → filter (λ info, filename info = name) ar = [].
Proof.
  induction ar as [|i ar IH]; [done|]. cbn [map]. rewrite not_elem_of_cons.
  intros [Hne Hnin]. rewrite filter_cons_False by done. by apply IH.
Qed.

(** With names all different, [zipfile] opens under a name the member that
    has it. *)
Lemma getinfo_NoDup (ar : list ZipInfo) info :
  NoDup (map filename ar) → info ∈ ar → getinfo ar (filename info) = Some info.
Proof.
  unfold getinfo. induction ar as [|i ar IH]; intros Hnd Hin.
  { by apply elem_of_nil in Hin. }
  cbn [map] in Hnd. apply NoDup_cons in Hnd as [Hi Hnd].
  apply elem_of_cons in Hin as [->|Hin].
  - rewrite filter_cons_True by done. by rewrite filter_name_nil.
  - rewrite filter_cons_False; [by apply IH|].
    intros Heq. apply Hi. rewrite Heq. apply list_elem_of_fmap. by exists info.
Qed.

(** The loop leaves the keys of other members as they are. *)
Lemma zip_entries_loop_frame archive ar infos digests m key :
  result (zip_entries_loop archive ar infos digests) = Ok m →
  key ∉ entry_keys archive (map filename infos) →
  m !! key = digests !! key.
Proof.
  revert digests. induction infos as [|info rest IH]; intros digests;
    cbn [zip_entries_loop map].
  - by intros [= <-].
  - rewrite result_bind. unfold zip_open, call. cbn [result snd].
    destruct (getinfo ar (filename info) ≫= member_data) as [f|]; [|done].
    rewrite entry_keys_cons, !not_elem_of_cons. intros Hm (Hd & Hc & Hrest).
    rewrite (IH _ Hm Hrest). by rewrite !lookup_insert_ne.
Qed.

Lemma zip_entries_loop_lookup archive ar infos digests m info :
  result (zip_entries_loop archive ar infos digests) = Ok m →
  NoDup (entry_keys archive (map filename infos)) → info ∈ infos →
  ∃ data, getinfo ar (filename info) ≫= member_data = Some data
    ∧ m !! (archive +:+ "#" +:+ filename info +:+ "#date_time")
      = Some (_digest_json (date_time_json (date_time info)))
    ∧ m !! (archive +:+ "#" +:+ filename info) = Some (hash_stream data).
Proof.
  revert digests. induction infos as [|i rest IH]; intros digests Hm Hnd Hin.
  { by apply elem_of_nil in Hin. }
  cbn [zip_entries_loop map] in Hm. rewrite result_bind in Hm.
  unfold zip_open, call in Hm. cbn [result snd] in Hm.
  destruct (getinfo ar (filename i) ≫= member_data) as [f|] eqn:Ef; [|done].
  cbn [map] in Hnd. rewrite entry_keys_cons in Hnd.
  apply NoDup_cons in Hnd as [Hd Hnd]. apply NoDup_cons in Hnd as [Hc Hnd].
  apply not_elem_of_cons in Hd as [Hdc Hd].
  apply elem_of_cons in Hin as [->|Hin]; [|by eapply IH].
  exists f. split; [done|]. split.
  - rewrite (zip_entries_loop_frame _ _ _ _ _ _ Hm Hd).
    rewrite lookup_insert_ne by done. apply lookup_insert_eq.
  - rewrite (zip_entries_loop_frame _ _ _ _ _ _ Hm Hc). apply lookup_insert_eq.
Qed.

(** When no two members write the same key (names pairwise different, none
    [namelist], none another one followed by [#date_time]), the digests of an
    archive hold, under [a#namelist] the digest of the list of names in
    stored order, and for each member under [a#<name>#date_time] the digest
    of its timestamp and under [a#<name>] the digest of its content. *)
Theorem digest_archive_lookup (fs : FS) (archive : string) (m : gmap string string) :
  result (digest_archive fs archive) = Ok m →
  ∃ ar, zip_members fs archive = Some ar
    ∧ (NoDup (map filename ar) → "namelist" ∉ map filename ar →
       (∀ n n', n ∈ map filename ar → n' ∈ map filename ar → n' ≠ n +:+ "#date_time") →
       m !! (archive +:+ "#namelist")
         = Some (_digest_json (JList (map (λ info, JStr (filename info)) ar)))
       ∧ ∀ info, info ∈ ar →
           ∃ data, member_data info = Some data
             ∧ m !! (archive +:+ "#" +:+ filename info +:+ "#date_time")
               = Some (_digest_json (date_time_json (date_time info)))
             ∧ m !! (archive +:+ "#" +:+ filename info) = Some (SHA256.hexdigest data)).
Proof.
  unfold digest_archive. destruct (_ || _); [|done].
  unfold _digest_zip_archive, ZipFile, call. rewrite result_bind. cbn [result snd].
  destruct (zip_members fs archive) as [ar|]; [|done].
  intros Hm. exists ar. split; [done|]. intros Hnd Hnl Hdt.
  pose proof (archive_keys_NoDup archive _ Hnd Hnl Hdt) as Hkeys.
  unfold archive_keys in Hkeys. apply NoDup_cons in Hkeys as [Hk0 Hkeys]. split.
  - rewrite (zip_entries_loop_frame _ _ _ _ _ _ Hm Hk0). apply lookup_insert_eq.
  - intros info Hin.
    destruct (zip_entries_loop_lookup _ _ _ _ _ _ Hm Hkeys Hin) as (data & Hd & Hdt' & Hc).
    rewrite (getinfo_NoDup ar info Hnd Hin) in Hd. cbn in Hd.
    exists data. split; [done|]. split; [done|]. by rewrite <- hash_stream_whole.
Qed.

Lemma digest_archive_lookup_witness :
  ∃ data, member_data (member "x" "1") = Some data
    ∧ (list_to_map
       [("a.zip#namelist", "cd65ea2c2ad99e94a85b1b6df72efef9cb2ed0ae933a60c32ce16317f7d7d6aa");
        ("a.zip#x#date_time", "8e25cf449fd44d6a2dec3790cc5ba3681685ed9863d6b6ca760cc7c155b4b09e");
        ("a.zip#x", "6b86b273ff34fce19d6b804eff5a3f5747ada4eaa22f1d49c01e52ddb7875b4b")]
        : gmap string string) !! "a.zip#x" = Some (SHA256.hexdigest data).
Proof.
  destruct (digest_archive_lookup demo_fs "a.zip" _ (f_equal snd digest_archive_a_zip))
    as (ar & Har & Hlook).
  change (Some [member "x" "1"] = Some ar) in Har. injection Har as <-.
  destruct Hlook as [_ Hent].
  - apply NoDup_singleton.
  - intros Hin. apply list_elem_of_singleton in Hin. discriminate.
  - intros n n' Hn Hn'. apply list_elem_of_singleton in Hn, Hn'. subst. discriminate.
  - destruct (Hent (member "x" "1")) as (data & Hd & _ & Hc); [by left|].
    exists data. split; [exact Hd|exact Hc].
Defined.

(** ** More on the comparison *)

(** The set of keys is traversed in an order Python leaves open; whatever
    that order, the result is the same list. *)
Theorem compare_digests_any_order (order : gset string → list string)
    (A B : gmap string string) :
  (∀ s, NoDup (order s)) → (∀ (s : gset string) key, key ∈ order s ↔ key ∈ s) →
  compare_digests_in order A B = compare_digests A B.
Proof.
  intros Hnd Hel. apply compare_digests_in_order; [apply dict_get_keys|done|done].
Qed.

Lemma compare_digests_any_order_witness :
  compare_digests_in (λ s, reverse (elements s))
    ({[ "b" := "1"; "a" := "2" ]} : gmap string string) ∅
  = compare_digests ({[ "b" := "1"; "a" := "2" ]} : gmap string string) ∅.
Proof.
  apply (compare_digests_any_order (λ s, reverse (elements s))).
  - intros s. rewrite reverse_Permutation. apply NoDup_elements.
  - intros s key. rewrite elem_of_reverse. apply elem_of_elements.
Defined.

Lemma compare_digests_nil `{Mapping M} (d1 d2 : M) :
  (∀ (m : M) key, get m key ≠ None → key ∈ keys m) →
  compare_digests d1 d2 = [] ↔ ∀ key, get d1 key = get d2 key.
Proof.
  intros Hlaw.
  assert (Hiff : ∀ key, key ∈ compare_digests d1 d2 ↔ get d1 key ≠ get d2 key).
  { intros key. apply elem_of_compare_digests_in; [done|].
    intros; apply elem_of_elements. }
  split.
  - intros Hnil key. destruct (decide (get d1 key = get d2 key)) as [|Hne]; [done|].
    apply Hiff in Hne. rewrite Hnil in Hne. by apply elem_of_nil in Hne.
  - intros Heq. destruct (compare_digests d1 d2) as [|key l] eqn:E; [done|].
    assert (Hin : key ∈ key :: l) by left. apply Hiff in Hin. by destruct Hin.
Qed.

(** No difference is reported exactly when the two maps are equal. *)
Theorem compare_digests_empty_iff (A B : gmap string string) :
  compare_digests A B = [] ↔ A = B.
Proof.
  rewrite (compare_digests_nil A B dict_get_keys). split.
  - intros Heq. by apply map_eq.
  - by intros ->.
Qed.

(** On snapshots: a key is reported exactly when the two chains answer
    differently for it, each chain answering with the first of its maps that
    has the key; the result is sorted, without repetition, and empty exactly
    when the chains agree on every key. *)
Theorem compare_digests_chain (cm1 cm2 : ChainMap) :
  (∀ key, key ∈ compare_digests cm1 cm2 ↔ get cm1 key ≠ get cm2 key)
  ∧ StronglySorted String.le (compare_digests cm1 cm2)
  ∧ NoDup (compare_digests cm1 cm2)
  ∧ (compare_digests cm1 cm2 = [] ↔ ∀ key, get cm1 key = get cm2 key).
Proof.
  split; [|split; [|split]].
  - intros key. apply elem_of_compare_digests_in; [apply chain_get_keys|].
    intros; apply elem_of_elements.
  - apply compare_digests_in_sorted.
  - apply compare_digests_in_NoDup. intros; apply NoDup_elements.
  - apply compare_digests_nil, chain_get_keys.
Qed.

Lemma chain_get_union (ms : list (gmap string string)) key :
  chain_get ms key = (⋃ ms) !! key.
Proof.
  induction ms as [|m ms IH]; cbn [chain_get union_list foldr].
  - by rewrite lookup_empty.
  - rewrite lookup_union, IH. by destruct (m !! key), ((⋃ ms) !! key).
Qed.

Lemma chain_keys_union (ms : list (gmap string string)) :
  keys {| maps := ms |} = dom (⋃ ms).
Proof.
  simpl. induction ms as [|m ms IH]; cbn [fmap list_fmap union_list foldr].
  - by rewrite dom_empty_L.
  - by rewrite dom_union_L, <- IH.
Qed.

(** Comparing two snapshots is comparing the dictionaries obtained by merging
    each chain, an earlier map overriding a later one. *)
Theorem compare_digests_flatten (cm1 cm2 : ChainMap) :
  compare_digests cm1 cm2
  = compare_digests (⋃ maps cm1 : gmap string string) (⋃ maps cm2).
Proof.
  destruct cm1 as [ms1], cm2 as [ms2]. unfold compare_digests, compare_digests_in.
  rewrite !chain_keys_union. cbn [maps]. f_equal.
  apply list_filter_iff. intros key. cbn [get ChainMap_Mapping dict_Mapping maps].
  by rewrite !chain_get_union.
Qed.

(** ** The snapshot and the test, continued *)

Lemma trace_zip_entries_loop archive ar infos digests :
  Forall not_a_run (trace (zip_entries_loop archive ar infos digests)).
Proof.
  revert digests. induction infos as [|info rest IH]; intros digests;
    cbn [zip_entries_loop]; [constructor|].
  rewrite trace_bind. apply Forall_app. split.
  - unfold zip_open, call. by repeat constructor.
  - destruct (result _); [apply IH|constructor].
Qed.

Lemma trace_digest_archive fs archive :
  Forall not_a_run (trace (digest_archive fs archive)).
Proof.
  unfold digest_archive. destruct (_ || _); [|constructor].
  unfold _digest_zip_archive. rewrite trace_bind. apply Forall_app. split.
  - unfold ZipFile, call. by repeat constructor.
  - destruct (result _); [apply trace_zip_entries_loop|constructor].
Qed.

Lemma trace_for_each {A B} (f : A → io B) (l : list A) (P : event → Prop) :
  (∀ x, Forall P (trace (f x))) → Forall P (trace (for_each f l)).
Proof.
  intros Hf. induction l as [|x l IH]; cbn [for_each]; [constructor|].
  rewrite trace_bind. apply Forall_app. split; [apply Hf|].
  destruct (result (f x)); [|constructor].
  rewrite trace_bind. apply Forall_app. split; [apply IH|].
  destruct (result _); constructor.
Qed.

Lemma trace_digest_outputs {World : Type} (view : World → FS) files archives w :
  Forall not_a_run (trace (digest_outputs view files archives w)).
Proof.
  unfold digest_outputs. rewrite trace_bind. apply Forall_app. split.
  - eapply Forall_impl; [apply trace_digest_files_at|].
    intros ev Hev ->. exact Hev.
  - destruct (result _); [|constructor].
    rewrite trace_bind. apply Forall_app. split.
    + apply trace_for_each. intros archive. apply trace_digest_archive.
    + destruct (result _); constructor.
Qed.

(** When the first snapshot fails, [test_reproducibility] raises what the
    snapshot raised and the operation is not run a second time. *)
Theorem test_reproducibility_snapshot_failure {World : Type} (view : World → FS)
    (func : World → outcome World) (output_files output_archives : list string)
    (w w1 : World) (t1 : list event) (e : exn) :
  func w = Ok w1 →
  digest_outputs view output_files output_archives w1 = (t1, Raise e) →
  test_reproducibility view func output_files output_archives w = (EvRun :: t1, Raise e)
  ∧ EvRun ∉ t1.
Proof.
  intros Hf Hd. split.
  - unfold test_reproducibility, run_func. rewrite Hf. cbn [bind]. by rewrite Hd.
  - pose proof (trace_digest_outputs view output_files output_archives w1) as Hall.
    rewrite Hd in Hall. rewrite Forall_forall in Hall.
    intros Hin. by apply (Hall _ Hin).
Qed.

Lemma test_reproducibility_snapshot_failure_witness :
  test_reproducibility (λ _, demo_fs) (demo_func 2) ["out"] ["a.tar"] 0%nat
  = ([EvRun; EvIslink "out"; EvIsdir "out"; EvListdir "out";
      EvIslink "out/a.txt"; EvIsdir "out/a.txt"; EvOpen "out/a.txt";
      EvIslink "out/link"; EvReadlink "out/link";
      EvIslink "a.tar"; EvIsdir "a.tar"; EvOpen "a.tar"],
     Raise (OSError "a.tar")).
Proof.
  apply (test_reproducibility_snapshot_failure (λ _, demo_fs) (demo_func 2) ["out"]
           ["a.tar"] 0%nat 1%nat); [reflexivity|]. vm_compute. reflexivity.
Defined.

(** A declared archive whose name has no supported ending makes the snapshot
    fail, whatever else is declared: no snapshot leaves it out. *)
Theorem digest_outputs_unsupported {World : Type} (view : World → FS)
    (output_files output_archives : list string) (w : World) (a : string) :
  a ∈ output_archives →
  endswith a ".zip" || endswith a ".jar" || endswith a ".war" = false →
  ∃ e, result (digest_outputs view output_files output_archives w) = Raise e.
Proof.
  intros Ha Hext.
  destruct (result (digest_outputs view output_files output_archives w)) as [cm|e] eqn:E;
    [|by exists e].
  apply digest_outputs_spec in E as (base & entries & _ & Hent & _).
  apply list_elem_of_lookup in Ha as [i Hi].
  destruct (Forall2_lookup_l _ _ _ _ _ Hent Hi) as (ma & _ & Hma).
  unfold digest_archive in Hma. by rewrite Hext in Hma.
Qed.

Lemma digest_outputs_unsupported_witness :
  ∃ e, result (digest_outputs (λ _ : unit, demo_fs) ["out"] ["a.zip"; "n.tgz"] ()) = Raise e.
Proof.
  apply (digest_outputs_unsupported (λ _ : unit, demo_fs) ["out"] ["a.zip"; "n.tgz"] ()
           "n.tgz"); [by right; left|reflexivity].
Defined.

Lemma test_reproducibility_inv {World : Type} (view : World → FS)
    (func : World → outcome World) (output_files output_archives : list string)
    (w : World) (differences : list string) :
  result (test_reproducibility view func output_files output_archives w) = Ok differences →
  ∃ w1 w2 cm1 cm2,
    func w = Ok w1
    ∧ result (digest_outputs view output_files output_archives w1) = Ok cm1
    ∧ func w1 = Ok w2
    ∧ result (digest_outputs view output_files output_archives w2) = Ok cm2
    ∧ differences = compare_digests cm1 cm2
    ∧ (∀ key, key ∈ differences ↔ get cm1 key ≠ get cm2 key)
    ∧ StronglySorted String.le differences
    ∧ NoDup differences.
Proof.
  unfold test_reproducibility, run_func. rewrite result_bind. cbn [result snd].
  destruct (func w) as [w1|] eqn:Ef1; [|done].
  rewrite result_bind.
  destruct (result (digest_outputs _ _ _ w1)) as [cm1|] eqn:Ed1; [|done].
  rewrite result_bind. cbn [result snd].
  destruct (func w1) as [w2|] eqn:Ef2; [|done].
  rewrite result_bind.
  destruct (result (digest_outputs _ _ _ w2)) as [cm2|] eqn:Ed2; [|done].
  intros [= <-]. exists w1, w2, cm1, cm2. repeat (split; [done|]).
  split; [|split].
  - intros key. apply elem_of_compare_digests_in; [apply chain_get_keys|].
    intros; apply elem_of_elements.
  - apply compare_digests_in_sorted.
  - apply compare_digests_in_NoDup. intros; apply NoDup_elements.
Qed.

(** What [test_reproducibility] returns: when it returns a list, the
    operation succeeded twice, a snapshot was taken after each run, and the
    list is [compare_digests] of the two snapshots: exactly the keys for
    which they answer differently, each once, in ascending order. *)
Theorem test_reproducibility_returns {World : Type} (view : World → FS)
    (func : World → outcome World) (output_files output_archives : list string)
    (w : World) (differences : list string) :
  result (test_reproducibility view func output_files output_archives w) = Ok differences →
  ∃ w1 w2 cm1 cm2,
    func w = Ok w1
    ∧ result (digest_outputs view output_files output_archives w1) = Ok cm1
    ∧ func w1 = Ok w2
    ∧ result (digest_outputs view output_files output_archives w2) = Ok cm2
    ∧ differences = compare_digests cm1 cm2
    ∧ (∀ key, key ∈ differences ↔ get cm1 key ≠ get cm2 key)
    ∧ StronglySorted String.le differences
    ∧ NoDup differences.
Proof. apply test_reproducibility_inv. Qed.

Lemma test_reproducibility_returns_witness :
  ∃ w1 w2 cm1 cm2,
    demo_func 2 0%nat = Ok w1
    ∧ result (digest_outputs (out_view "B") ["out.txt"] [] w1) = Ok cm1
    ∧ demo_func 2 w1 = Ok w2
    ∧ result (digest_outputs (out_view "B") ["out.txt"] [] w2) = Ok cm2
    ∧ ["out.txt"] = compare_digests cm1 cm2
    ∧ (∀ key, key ∈ ["out.txt"] ↔ get cm1 key ≠ get cm2 key)
    ∧ StronglySorted String.le ["out.txt"]
    ∧ NoDup ["out.txt"].
Proof.
  apply (test_reproducibility_returns (out_view "B") (demo_func 2) ["out.txt"] [] 0%nat).
  exact test_reproducibility_differs.
Defined.

Lemma digest_archive_reordered fs fs' archive :
  reordered fs fs' → digest_archive fs' archive = digest_archive fs archive.
Proof.
  intros Hre. unfold digest_archive, _digest_zip_archive, ZipFile.
  by rewrite (re_zip_members _ _ Hre), (re_read_file _ _ Hre).
Qed.

Lemma digest_outputs_reordered {World : Type} (view : World → FS) files archives w w' :
  reordered (view w) (view w') →
  same_outcome (result (digest_outputs view files archives w'))
               (result (digest_outputs view files archives w)).
Proof.
  intros Hre. unfold digest_outputs. rewrite !result_bind.
  pose proof (digest_files_reordered (view w) (view w') (files ++ archives)
                (files ++ archives) Hre (λ p, reflexivity _)) as Hsame.
  destruct (result (digest_files (view w') _)) as [base'|],
    (result (digest_files (view w) _)) as [base|]; simpl in Hsame; try done.
  subst base'. rewrite !result_bind.
  assert (Heq : for_each (digest_archive (view w')) archives
                = for_each (digest_archive (view w)) archives).
  { induction archives as [|a archives IH]; [done|].
    cbn [for_each]. by rewrite (digest_archive_reordered _ _ a Hre), IH. }
  rewrite Heq. by destruct (result (for_each _ archives)).
Qed.

(** An operation that leaves after its second run what it left after its
    first, be the directories listed in another order, is found
    reproducible: the result is the empty list. *)
Theorem test_reproducibility_stable {World : Type} (view : World → FS)
    (func : World → outcome World) (output_files output_archives : list string)
    (w w1 w2 : World) (cm1 : ChainMap) :
  func w = Ok w1 → func w1 = Ok w2 → reordered (view w1) (view w2) →
  result (digest_outputs view output_files output_archives w1) = Ok cm1 →
  result (test_reproducibility view func output_files output_archives w) = Ok [].
Proof.
  intros Hf1 Hf2 Hre Hd1.
  pose proof (digest_outputs_reordered view output_files output_archives w1 w2 Hre) as Hsame.
  unfold test_reproducibility, run_func.
  rewrite result_bind, Hf1. cbn [result snd]. rewrite result_bind, Hd1.
  rewrite result_bind, Hf2. cbn [result snd]. rewrite result_bind.
  rewrite Hd1 in Hsame.
  destruct (result (digest_outputs _ _ _ w2)) as [cm2|]; [|done].
  simpl in Hsame. subst cm2. cbn [ret result snd]. f_equal.
  by apply (compare_digests_nil cm1 cm1 chain_get_keys).
Qed.

Lemma test_reproducibility_stable_witness :
  result (test_reproducibility (out_view "A") (demo_func 2) ["out.txt"] [] 0%nat) = Ok [].
Proof.
  destruct (result (digest_outputs (out_view "A") ["out.txt"] [] 1%nat)) as [cm1|] eqn:E;
    [|by vm_compute in E].
  apply (test_reproducibility_stable (out_view "A") (demo_func 2) ["out.txt"] []
           0%nat 1%nat 2%nat cm1); [reflexivity|reflexivity|apply reordered_refl|exact E].
Defined.

(** A declared path that is a link or a file after both runs and whose link
    target or content digest changed between them is in the result: the
    File Digester's value of a key is never hidden by an archive's. *)
Theorem test_reproducibility_detects {World : Type} (view : World → FS)
    (func : World → outcome World) (output_files output_archives : list string)
    (w w1 w2 : World) (differences : list string) (p : string) :
  result (test_reproducibility view func output_files output_archives w) = Ok differences →
  func w = Ok w1 → func w1 = Ok w2 →
  p ∈ output_files ++ output_archives →
  islink (view w1) p = true ∨ isdir (view w1) p = false →
  islink (view w2) p = true ∨ isdir (view w2) p = false →
  leaf_value (view w1) p ≠ leaf_value (view w2) p →
  p ∈ differences.
Proof.
  intros Hres Hf1 Hf2 Hp Hl1 Hl2 Hne.
  apply test_reproducibility_inv in Hres
    as (w1' & w2' & cm1 & cm2 & Hf1' & Hd1 & Hf2' & Hd2 & _ & Hiff & _).
  rewrite Hf1 in Hf1'. injection Hf1' as <-.
  rewrite Hf2 in Hf2'. injection Hf2' as <-.
  apply Hiff.
  apply digest_outputs_spec in Hd1 as (base1 & entries1 & Hb1 & _ & ->).
  apply digest_outputs_spec in Hd2 as (base2 & entries2 & Hb2 & _ & ->).
  destruct (digest_files_leaf _ _ _ p Hb1 Hp Hl1) as (v1 & Hv1 & Hleaf1).
  destruct (digest_files_leaf _ _ _ p Hb2 Hp Hl2) as (v2 & Hv2 & Hleaf2).
  cbn [get ChainMap_Mapping maps].
  rewrite (chain_get_head _ _ _ _ Hv1), (chain_get_head _ _ _ _ Hv2). congruence.
Qed.

Lemma test_reproducibility_detects_witness :
  "out.txt" ∈ ["out.txt"].
Proof.
  apply (test_reproducibility_detects (out_view "B") (demo_func 2) ["out.txt"] []
           0%nat 1%nat 2%nat ["out.txt"] "out.txt" test_reproducibility_differs
           eq_refl eq_refl).
  - by left.
  - by right.
  - by right.
  - by vm_compute.
Defined.

(** ** The command line *)

(** [CLI.test] prints the one line that the command is reproducible exactly
    when the test returns no difference; otherwise it prints two lines of
    heading and then each differing key on a line of its own, indented by
    four spaces, in the order of the result; it prints nothing when the test
    raises. *)
Theorem CLI_test_report {World : Type} (view : World → FS)
    (func : World → outcome World) (file archive : option (list string))
    (w : World) (out : list string) :
  result (CLI_test view func file archive w) = Ok out →
  ∃ differences,
    result (test_reproducibility view func (default [] file) (default [] archive) w)
    = Ok differences
    ∧ (out = ["The command is reproducible!"] ↔ differences = [])
    ∧ (differences ≠ [] →
       length out = (2 + length differences)%nat
       ∧ drop 2 out = map (λ file, "    " +:+ file) differences).
Proof.
  unfold CLI_test. rewrite result_bind.
  destruct (result (test_reproducibility _ _ _ _ _)) as [differences|]; [|done].
  intros [= <-]. exists differences. split; [done|].
  unfold report. destruct differences as [|d ds]; cbn [length Nat.eqb].
  - split; [done|]. by intros [].
  - split; [split; discriminate|]. intros _. split; [|done].
    cbn [app length]. by rewrite length_map.
Qed.

Lemma CLI_test_report_witness :
  ∃ differences,
    result (test_reproducibility (out_view "B") (demo_func 2) (default [] (Some ["out.txt"]))
              (default [] None) 0%nat) = Ok differences
    ∧ (["The command is not reproducible: the following files are produced differently";
        "by the second invocation:"; "    out.txt"] = ["The command is reproducible!"]
       ↔ differences = [])
    ∧ (differences ≠ [] →
       length ["The command is not reproducible: the following files are produced differently";
               "by the second invocation:"; "    out.txt"] = (2 + length differences)%nat
       ∧ drop 2 ["The command is not reproducible: the following files are produced differently";
                 "by the second invocation:"; "    out.txt"]
         = map (λ file, "    " +:+ file) differences).
Proof.
  apply (CLI_test_report (out_view "B") (demo_func 2) (Some ["out.txt"]) None 0%nat).
  vm_compute. reflexivity.
Defined.

(** ** The keys of [digest_files] *)

Lemma reachable_below fs files d names key :
  reachable fs files d →
  islink fs d = false → isdir fs d = true → listdir fs d = Some names →
  reachable fs (map (os_path_join d) names) key → reachable fs files key.
Proof.
  intros Hd El Ed Els Hkey. induction Hkey as [p Hp|d' names' name _ IH El' Ed' Els' Hn].
  - apply list_elem_of_fmap in Hp as (name & -> & Hname).
    by eapply reachable_child.
  - by eapply reachable_child.
Qed.

Lemma digest_files_at_reachable fs depth files m key :
  result (digest_files_at depth fs files) = Ok m → key ∈ dom m →
  reachable fs files key.
Proof.
  revert files m. induction depth as [|k IH]; intros files m; [done|].
  cbn [digest_files_at]. rewrite result_digest_files_body. intros Hm Hkey.
  apply (merge_results_dom _ _ _ Hm) in Hkey as [Hkey|(mp & Hin & Hkey)].
  { by rewrite dom_empty_L in Hkey. }
  apply list_elem_of_fmap in Hin as (p & Hp & Hpin). symmetry in Hp. revert Hp.
  unfold digest_one, os_path_islink, os_path_isdir, os_readlink.
  rewrite !bind_call_some. cbn [result snd].
  destruct (islink fs p) eqn:El.
  { intros [= <-]. rewrite dom_singleton_L in Hkey.
    apply elem_of_singleton in Hkey as ->. by constructor. }
  destruct (isdir fs p) eqn:Ed.
  - unfold os_listdir. destruct (listdir fs p) as [names|] eqn:Els; [|done].
    rewrite bind_call_some. cbn [result snd]. intros Hsub.
    apply (reachable_below fs files p names); [by constructor|done..|].
    by eapply IH.
  - unfold _digest_file, open_rb, call. destruct (read_file fs p); [|done].
    intros [= <-]. rewrite dom_singleton_L in Hkey.
    apply elem_of_singleton in Hkey as ->. by constructor.
Qed.

Lemma result_digest_files_dir fs d names :
  fs_wf fs → islink fs d = false → isdir fs d = true → listdir fs d = Some names →
  result (digest_files fs [d]) = result (digest_files fs (map (os_path_join d) names)).
Proof.
  intros Hwf El Ed Els. unfold digest_files at 1. cbn [digest_files_at].
  rewrite result_digest_files_body. cbn [map merge_results].
  rewrite (result_digest_one_dir _ fs d names El Ed Els).
  pose proof (wf_height fs Hwf d names El Ed Els) as Hlt.
  rewrite (digest_files_at_enough fs Hwf _
             (S (max_height fs (map (os_path_join d) names)))).
  - fold (digest_files fs (map (os_path_join d) names)).
    destruct (result (digest_files fs _)); [|done]. by rewrite (right_id_L ∅ (∪)).
  - unfold max_height at 2. simpl. lia.
  - lia.
Qed.

Lemma digest_files_listed_sub fs files p m :
  fs_wf fs → result (digest_files fs files) = Ok m → p ∈ files →
  ∃ mp, result (digest_files fs [p]) = Ok mp ∧ mp ⊆ m.
Proof.
  intros Hwf Hm Hp.
  pose proof (digest_files_at_consistent _ _ _ _ Hm) as Hcons.
  rewrite result_digest_files_split in Hm by done.
  set (one := λ p, result (digest_files fs [p])) in *.
  assert (Hin : one p ∈ map one files) by (apply list_elem_of_fmap; by exists p).
  pose proof (merge_results_all_Ok _ _ _ Hm _ Hin) as Hok.
  destruct (one p) as [mp|] eqn:Ep; [|done].
  exists mp. split; [done|].
  apply map_subseteq_spec. intros key v Hv.
  assert (Hk : key ∈ dom m).
  { apply (merge_results_dom _ _ _ Hm). right. exists mp. split; [done|].
    by apply elem_of_dom_2 in Hv. }
  apply elem_of_dom in Hk as [v' Hv'].
  apply Hcons in Hv' as Hl'.
  apply (digest_files_at_consistent _ _ _ _ Ep) in Hv. congruence.
Qed.

(** The digest of every path the traversal comes to is part of the result. *)
Lemma digest_files_reachable_sub fs files p m :
  fs_wf fs → result (digest_files fs files) = Ok m → reachable fs files p →
  ∃ mp, result (digest_files fs [p]) = Ok mp ∧ mp ⊆ m.
Proof.
  intros Hwf Hm Hp. induction Hp as [p Hp|d names name _ IH El Ed Els Hn].
  - by apply (digest_files_listed_sub fs files).
  - destruct IH as (md & Hd & Hsub).
    rewrite (result_digest_files_dir fs d names Hwf El Ed Els) in Hd.
    destruct (digest_files_listed_sub fs _ (os_path_join d name) md Hwf Hd)
      as (mc & Hc & Hsub').
    { apply list_elem_of_fmap. by exists name. }
    exists mc. split; [done|]. by etrans.
Qed.

(** The digest of a list contains the digest of every path the traversal
    comes to: what [digest_files] records for such a path alone, it records
    in the whole with the same values. *)
Theorem digest_files_contains (fs : FS) (files : list string) (p : string)
    (m : gmap string string) :
  fs_wf fs → result (digest_files fs files) = Ok m → reachable fs files p →
  ∃ mp, result (digest_files fs [p]) = Ok mp ∧ mp ⊆ m.
Proof. apply digest_files_reachable_sub. Qed.

Lemma digest_files_contains_witness :
  ∃ mp, result (digest_files demo_fs ["out/a.txt"]) = Ok mp
    ∧ mp ⊆ list_to_map
      [("out/a.txt", "sha256=559aead08264d5795d3909718cdd05abd49572e84fe55590eef31a88a08fdffd");
       ("out/link", "symlink=missing");
       ("a.zip", "sha256=0ed1c33c5ef91272612279153dd70bdc789a07eda59dee2029581bf09d4892ce");
       ("l.zip", "symlink=a.zip")].
Proof.
  apply (digest_files_contains demo_fs ["out"; "a.zip"; "l.zip"] "out/a.txt" _ demo_fs_wf
           digest_files_demo).
  apply (reachable_child demo_fs _ "out" ["a.txt"; "link"] "a.txt");
    [apply reachable_listed; by left|reflexivity..|by left].
Defined.

Lemma digest_files_single_leaf fs p :
  islink fs p = true ∨ isdir fs p = false →
  ∀ mp, result (digest_files fs [p]) = Ok mp → p ∈ dom mp.
Proof.
  intros Hleaf mp Hmp.
  destruct (digest_files_leaf fs [p] mp p Hmp) as (v & Hv & _); [by left|done|].
  by apply elem_of_dom_2 in Hv.
Qed.

(** The keys of the result are exactly the links and the files that the
    traversal comes to: the listed paths and what lies below the listed
    directories, links to directories not followed. *)
Theorem digest_files_keys (fs : FS) (files : list string) (m : gmap string string)
    (key : string) :
  fs_wf fs → result (digest_files fs files) = Ok m →
  key ∈ dom m ↔
  reachable fs files key ∧ (islink fs key = true ∨ isdir fs key = false).
Proof.
  intros Hwf Hm. split.
  - intros Hkey. split; [by eapply digest_files_at_reachable|].
    apply elem_of_dom in Hkey as [v Hv].
    apply (digest_files_at_consistent _ _ _ _ Hm) in Hv.
    unfold leaf_value in Hv. destruct (islink fs key); [by left|].
    destruct (isdir fs key); [done|by right].
  - intros [Hreach Hleaf].
    destruct (digest_files_reachable_sub fs files key m Hwf Hm Hreach) as (mp & Hmp & Hsub).
    apply (digest_files_single_leaf fs key Hleaf) in Hmp.
    apply elem_of_dom in Hmp as [v Hv]. apply elem_of_dom. exists v.
    by apply (map_subseteq_spec mp m).
Qed.

Lemma digest_files_keys_witness :
  "out/link" ∈ dom (list_to_map
      [("out/a.txt", "sha256=559aead08264d5795d3909718cdd05abd49572e84fe55590eef31a88a08fdffd");
       ("out/link", "symlink=missing");
       ("a.zip", "sha256=0ed1c33c5ef91272612279153dd70bdc789a07eda59dee2029581bf09d4892ce");
       ("l.zip", "symlink=a.zip")] : gmap string string).
Proof.
  apply (digest_files_keys demo_fs ["out"; "a.zip"; "l.zip"] _ "out/link" demo_fs_wf
           digest_files_demo).
  split; [|by left].
  apply (reachable_child demo_fs _ "out" ["a.txt"; "link"] "link");
    [apply reachable_listed; by left|reflexivity..|by right; left].
Defined.

Lemma digest_files_unreadable_listed fs files p :
  p ∈ files → islink fs p = false →
  (isdir fs p = false ∧ read_file fs p = None) ∨ (isdir fs p = true ∧ listdir fs p = None) →
  ∃ e, result (digest_files fs files) = Raise e.
Proof.
  intros Hp El Hbad. unfold digest_files. cbn [digest_files_at].
  rewrite result_digest_files_body.
  destruct (merge_results _ ∅) as [m|e] eqn:E; [|by exists e]. exfalso.
  set (one := λ p, result (digest_one (digest_files_at (max_height fs files) fs) fs p)) in *.
  assert (Hin : one p ∈ map one files) by (apply list_elem_of_fmap; by exists p).
  pose proof (merge_results_all_Ok _ _ _ E _ Hin) as Hok. revert Hok.
  unfold one, digest_one, os_path_islink, os_path_isdir, os_listdir, _digest_file, open_rb.
  rewrite !bind_call_some, El. cbn [result snd].
  destruct Hbad as [[-> ->]|[-> ->]]; done.
Qed.

(** A file that does not open or a directory that cannot be listed, anywhere
    the traversal comes to, makes [digest_files] raise: no map is returned,
    not even for the paths that were read. *)
Theorem digest_files_unreadable (fs : FS) (files : list string) (p : string) :
  fs_wf fs → reachable fs files p → islink fs p = false →
  (isdir fs p = false ∧ read_file fs p = None) ∨ (isdir fs p = true ∧ listdir fs p = None) →
  ∃ e, result (digest_files fs files) = Raise e.
Proof.
  intros Hwf Hreach El Hbad.
  destruct (result (digest_files fs files)) as [m|e] eqn:E; [|by exists e]. exfalso.
  destruct (digest_files_reachable_sub fs files p m Hwf E Hreach) as (mp & Hmp & _).
  destruct (digest_files_unreadable_listed fs [p] p) as [e He]; [by left|done..|].
  congruence.
Qed.

Lemma digest_files_unreadable_witness :
  ∃ e, result (digest_files demo_fs ["out"; "nope"]) = Raise e.
Proof.
  apply (digest_files_unreadable demo_fs ["out"; "nope"] "nope" demo_fs_wf).
  - apply reachable_listed. by right; left.
  - reflexivity.
  - left. split; reflexivity.
Defined.

(** ** The serialisation of a timestamp *)

Lemma repr_int_inj z1 z2 : repr_int z1 = repr_int z2 → z1 = z2.
Proof.
  unfold repr_int. intros Heq. apply DecimalZ.to_int_inj.
  assert (Hparse : ∀ z, NilZero.int_of_string (NilZero.string_of_int (Z.to_int z))
                        = Some (Z.to_int z)).
  { intros z. apply NilZero.isi; destruct z; try done; cbn [Z.to_int];
      intros [= Hnil]; by apply DecimalPos.Unsigned.to_uint_nonnil in Hnil. }
  pose proof (Hparse z1) as H1. rewrite Heq, Hparse in H1. by injection H1.
Qed.

Lemma string_of_uint_chars d :
  Forall (λ c, c ∈ digit_chars) (chars (NilEmpty.string_of_uint d)).
Proof.
  induction d; cbn [NilEmpty.string_of_uint chars list_ascii_of_string];
    try constructor; try done;
    apply (bool_decide_unpack _); by vm_compute.
Qed.

Lemma repr_int_chars z : Forall (λ c, c ∈ digit_chars) (chars (repr_int z)).
Proof.
  unfold repr_int.
  assert (Hu : ∀ d, Forall (λ c, c ∈ digit_chars) (chars (NilZero.string_of_uint d))).
  { intros d. destruct d; try apply string_of_uint_chars.
    apply (string_of_uint_chars (Decimal.D0 Decimal.Nil)). }
  destruct (Z.to_int z) as [d|d]; cbn [NilZero.string_of_int]; [apply Hu|].
  constructor; [|apply Hu]. apply (bool_decide_unpack _). by vm_compute.
Qed.

Lemma repr_int_nonempty z : chars (repr_int z) ≠ [].
Proof.
  unfold repr_int. destruct (Z.to_int z) as [d|d]; [|done].
  destruct d; done.
Qed.

Lemma dumps_ints l :
  chars (JSON.dumps (JList (map JInt l))) = chars "[" ++ join_ints l ++ chars "]".
Proof.
  cbn [JSON.dumps]. rewrite !chars_app. f_equal. f_equal.
  induction l as [|x [|y l] IH]; [done|done|].
  cbn [map join_ints] in *. rewrite !chars_app, <- IH. done.
Qed.

Lemma split_at_comma (l1 l2 r1 r2 : list ascii) :
  Forall (λ c, c ∈ digit_chars) l1 → Forall (λ c, c ∈ digit_chars) l2 →
  l1 ++ chars ", " ++ r1 = l2 ++ chars ", " ++ r2 → l1 = l2 ∧ r1 = r2.
Proof.
  assert (Hcomma : ¬ ("," : ascii) ∈ digit_chars).
  { apply (bool_decide_eq_false_1 _). by vm_compute. }
  revert l2. induction l1 as [|c l1 IH]; intros [|c' l2] H1 H2 Heq.
  - by injection Heq.
  - injection Heq as <- _. apply Forall_cons_1 in H2 as [? _]. done.
  - injection Heq as -> _. apply Forall_cons_1 in H1 as [? _]. done.
  - injection Heq as <- Heq. apply Forall_cons_1 in H1 as [_ H1], H2 as [_ H2].
    destruct (IH l2 H1 H2 Heq) as [-> ->]. done.
Qed.

Lemma no_comma l r z :
  l ++ chars ", " ++ r ≠ chars (repr_int z).
Proof.
  intros Heq. pose proof (repr_int_chars z) as Hz. rewrite <- Heq in Hz.
  apply Forall_app in Hz as [_ Hz]. apply Forall_cons_1 in Hz as [Hc _].
  revert Hc. apply (bool_decide_eq_false_1 _). by vm_compute.
Qed.

Lemma join_ints_inj l1 l2 : join_ints l1 = join_ints l2 → l1 = l2.
Proof.
  revert l2. induction l1 as [|x [|y l1] IH]; intros [|x' [|y' l2]] Heq;
    cbn [join_ints] in Heq;
    first
      [ done
      | exfalso; by apply repr_int_nonempty in Heq
      | exfalso; symmetry in Heq; by apply repr_int_nonempty in Heq
      | exfalso; apply app_eq_nil in Heq as [Heq _]; by apply repr_int_nonempty in Heq
      | exfalso; symmetry in Heq; apply app_eq_nil in Heq as [Heq _];
        by apply repr_int_nonempty in Heq
      | exfalso; by apply no_comma in Heq
      | exfalso; symmetry in Heq; by apply no_comma in Heq
      | idtac ].
  - f_equal. by apply repr_int_inj, chars_inj.
  - apply split_at_comma in Heq as [Hx Hrest]; try apply repr_int_chars.
    apply chars_inj, repr_int_inj in Hx as ->. f_equal. by apply IH.
Qed.

(** Two timestamps that differ in any field are serialised to different
    texts: what [_digest_json] hashes for a member determines its
    timestamp. *)
Theorem date_time_json_inj (dt1 dt2 : DateTime) :
  JSON.dumps (date_time_json dt1) = JSON.dumps (date_time_json dt2) → dt1 = dt2.
Proof.
  intros Heq. apply (f_equal chars) in Heq. unfold date_time_json in Heq.
  rewrite !dumps_ints in Heq.
  apply app_inv_head, app_inv_tail, join_ints_inj in Heq.
  destruct dt1, dt2. cbn in Heq. by injection Heq as -> -> -> -> -> ->.
Qed.

Lemma date_time_json_inj_witness : epoch = epoch.
Proof. apply (date_time_json_inj epoch epoch). reflexivity. Defined.

(** ** The recursion limit *)





Example digest_files_at_limit :
  result (digest_files_at 1 demo_fs ["out"]) = Raise RecursionError
  ∧ result (digest_files_at 1 demo_fs ["out/a.txt"; "out/link"])
    = Ok (list_to_map
        [("out/a.txt", "sha256=559aead08264d5795d3909718cdd05abd49572e84fe55590eef31a88a08fdffd");
         ("out/link", "symlink=missing")]).
Proof. split; vm_compute; reflexivity. Qed.


